(** * PFS metadata and commit engine: a shallow embedding of
      [src/server/pfs/server/driver.go] and the properties of its
      repositories, commits, branches and scratch space. *)

From Stdlib Require Import ZArith String Ascii List Lia Bool.
From stdpp Require Import base option list gmap strings.

Local Open Scope string_scope.
Local Open Scope Z_scope.

(** ** Go library functions used by the driver

    [strings], [strconv], [fmt] and [path] belong to the Go standard
    library; the definitions below follow their documented behaviour on
    byte strings. *)
Module Go.

(** [len(s)] as an [int]. *)
Definition len (s : string) : Z := Z.of_nat (String.length s).

(** [s[:i]] and [s[i:]]. *)
Fixpoint take (i : nat) (s : string) : string :=
  match i, s with
  | O, _ => EmptyString
  | S i', String c s' => String c (take i' s')
  | S _, EmptyString => EmptyString
  end.

Fixpoint drop (i : nat) (s : string) : string :=
  match i, s with
  | O, _ => s
  | S i', String _ s' => drop i' s'
  | S _, EmptyString => EmptyString
  end.

(** [s[i]], when [i] is in range. *)
Definition index (s : string) (i : nat) : option ascii := String.get i s.

Fixpoint mem (c : ascii) (chars : string) : bool :=
  match chars with
  | EmptyString => false
  | String d chars' => Ascii.eqb c d || mem c chars'
  end.

(** [strings.IndexAny(s, chars)]; [None] stands for [-1]. *)
Fixpoint IndexAny (s chars : string) : option nat :=
  match s with
  | EmptyString => None
  | String c s' =>
      if mem c chars then Some O
      else match IndexAny s' chars with
           | Some i => Some (S i)
           | None => None
           end
  end.

(** [strings.HasPrefix(s, p)] *)
Fixpoint HasPrefix (s p : string) : bool :=
  match p, s with
  | EmptyString, _ => true
  | String c p', String d s' => Ascii.eqb c d && HasPrefix s' p'
  | String _ _, EmptyString => false
  end.

(** [strings.TrimPrefix(s, p)] *)
Definition TrimPrefix (s p : string) : string :=
  if HasPrefix s p then drop (String.length p) s else s.

(** [strings.Contains(s, sub)] *)
Fixpoint Contains (s sub : string) : bool :=
  HasPrefix s sub ||
  match s with
  | EmptyString => false
  | String _ s' => Contains s' sub
  end.

(** [strings.Split(s, "/")]: the pieces between the slashes, empty
    pieces included. *)
Fixpoint SplitSlash_aux (s cur : string) : list string :=
  match s with
  | EmptyString => [String.rev cur]
  | String c s' =>
      if Ascii.eqb c "/" then String.rev cur :: SplitSlash_aux s' EmptyString
      else SplitSlash_aux s' (String c cur)
  end.

Definition SplitSlash (s : string) : list string := SplitSlash_aux s EmptyString.

(** [strings.Join(elems, "/")] *)
Fixpoint JoinSlash (elems : list string) : string :=
  match elems with
  | [] => EmptyString
  | [e] => e
  | e :: rest => e +:+ "/" +:+ JoinSlash rest
  end.

(** *** strconv *)

Definition two63 : Z := 9223372036854775808.
Definition MaxInt64 : Z := two63 - 1.
Definition MinInt64 : Z := - two63.
Definition MaxUint64 : Z := 2 * two63 - 1.

(** Wrap-around of [int]/[int64] arithmetic (two's complement). *)
Definition wrap64 (z : Z) : Z := (z + two63) mod (2 * two63) - two63.

(** Wrap-around of [uint64] arithmetic. *)
Definition wrapU64 (z : Z) : Z := z mod (2 * two63).

(** The value of one digit, as in [strconv.ParseUint]: letters count
    from ten in either case. *)
Definition digit_val (c : ascii) : option Z :=
  let n := Z.of_N (N_of_ascii c) in
  if (48 <=? n) && (n <=? 57) then Some (n - 48)
  else if (97 <=? n) && (n <=? 122) then Some (n - 97 + 10)
  else if (65 <=? n) && (n <=? 90) then Some (n - 65 + 10)
  else None.

(** The digits of [s] in [base], most significant first; [None] on a
    character that is not a digit of the base. *)
Fixpoint parse_digits (base : Z) (s : string) (acc : Z) : option Z :=
  match s with
  | EmptyString => Some acc
  | String c s' =>
      match digit_val c with
      | Some d => if d <? base then parse_digits base s' (acc * base + d) else None
      | None => None
      end
  end.

(** [strconv.ParseUint(s, base, 64)] for an explicit base, before the
    range check: the empty string is a syntax error. *)
Definition parse_unsigned (base : Z) (s : string) : option Z :=
  match s with
  | EmptyString => None
  | _ => parse_digits base s 0
  end.

(** [strconv.ParseInt(s, base, 64)]: an optional sign, then digits;
    [None] for a syntax error or a value outside [int64]. *)
Definition ParseInt (s : string) (base : Z) : option Z :=
  match s with
  | EmptyString => None
  | String c s' =>
      if Ascii.eqb c "+" then
        match parse_unsigned base s' with
        | Some un => if un <? two63 then Some un else None
        | None => None
        end
      else if Ascii.eqb c "-" then
        match parse_unsigned base s' with
        | Some un => if un <=? two63 then Some (- un) else None
        | None => None
        end
      else
        match parse_unsigned base s with
        | Some un => if un <? two63 then Some un else None
        | None => None
        end
  end.

(** [strconv.Atoi(s)] on a 64-bit platform. *)
Definition Atoi (s : string) : option Z := ParseInt s 10.

(** *** fmt *)

Definition hex_digit (d : Z) : ascii :=
  if d <? 10 then ascii_of_N (Z.to_N (48 + d)) else ascii_of_N (Z.to_N (97 + d - 10)).

(** Lowercase hexadecimal digits of a non-negative number, least
    significant digit produced first and accumulated in front. *)
Fixpoint hex_pos (fuel : nat) (n : Z) (acc : string) : string :=
  match fuel with
  | O => acc
  | S fuel' =>
      let acc' := String (hex_digit (n mod 16)) acc in
      if n / 16 =? 0 then acc' else hex_pos fuel' (n / 16) acc'
  end.

Definition hex (n : Z) : string := hex_pos 64 n EmptyString.

Fixpoint zeros (k : nat) : string :=
  match k with
  | O => EmptyString
  | S k' => String "0" (zeros k')
  end.

Definition pad_zero (width : nat) (s : string) : string :=
  zeros (width - String.length s)%nat +:+ s.

(** [fmt.Sprintf("%016x", n)] for an [int] [n]: the sign, when there is
    one, counts in the width. *)
Definition Sprintf_016x (n : Z) : string :=
  if n <? 0 then String "-" (pad_zero 15 (hex (- n))) else pad_zero 16 (hex n).

(** *** path *)

(** One step of [path.Clean] over the elements between slashes: empty
    elements and [.] vanish, [..] removes the element before it, stays
    when there is none to remove in a relative path, and vanishes at
    the root. [out] is kept in reverse. *)
Fixpoint clean_elems (rooted : bool) (elems : list string) (out : list string) : list string :=
  match elems with
  | [] => rev out
  | e :: rest =>
      if String.eqb e EmptyString || String.eqb e "." then clean_elems rooted rest out
      else if String.eqb e ".." then
        match out with
        | o :: out' =>
            if String.eqb o ".." then clean_elems rooted rest (e :: out)
            else clean_elems rooted rest out'
        | [] => if rooted then clean_elems rooted rest out
                else clean_elems rooted rest (e :: out)
        end
      else clean_elems rooted rest (e :: out)
  end.

(** [path.Clean(p)] *)
Definition Clean (p : string) : string :=
  match p with
  | EmptyString => "."
  | String c _ =>
      let rooted := Ascii.eqb c "/" in
      let body := JoinSlash (clean_elems rooted (SplitSlash p) []) in
      if rooted then String "/" body
      else if String.eqb body EmptyString then "." else body
  end.

(** [path.Join(elems...)]: empty elements are ignored, and the result is
    cleaned; no non-empty element gives the empty string. *)
Definition Join (elems : list string) : string :=
  match List.filter (fun e => negb (String.eqb e EmptyString)) elems with
  | [] => EmptyString
  | es => Clean (JoinSlash es)
  end.

Fixpoint strip_trailing_slashes_rev (r : string) : string :=
  match r with
  | String c r' => if Ascii.eqb c "/" then strip_trailing_slashes_rev r' else r
  | EmptyString => EmptyString
  end.

(** [path.Base(p)] *)
Definition Base (p : string) : string :=
  match p with
  | EmptyString => "."
  | _ =>
      let stripped := String.rev (strip_trailing_slashes_rev (String.rev p)) in
      match stripped with
      | EmptyString => "/"
      | _ => List.last (SplitSlash stripped) EmptyString
      end
  end.

End Go.

(** ** Data model (the [pfs] messages the driver stores) *)

Record Repo := mkRepo { Repo_Name : string }.

Record Commit := mkCommit { Commit_Repo : Repo; Commit_ID : string }.

Record Object := mkObject { Object_Hash : string }.

(** [*types.Timestamp]; [now()] is supplied by the caller of each
    operation. *)
Definition Timestamp := Z.

Record RepoInfo := mkRepoInfo {
  ri_Repo : Repo;
  ri_Created : Timestamp;
  ri_SizeBytes : Z;                  (* uint64 *)
  ri_Provenance : list Repo;
  ri_Description : string
}.

Record CommitInfo := mkCommitInfo {
  ci_Commit : Commit;
  ci_ParentCommit : option Commit;   (* nil for a root commit *)
  ci_Started : Timestamp;
  ci_Finished : option Timestamp;    (* nil while the commit is open *)
  ci_SizeBytes : Z;                  (* uint64 *)
  ci_Tree : option Object;
  ci_Provenance : list Commit
}.

Record BranchInfo := mkBranchInfo { bi_Name : string; bi_Head : Commit }.

Record OverwriteIndex := mkOverwriteIndex { Index : Z }.

Record PutFileRecord := mkPutFileRecord {
  pfr_SizeBytes : Z;                 (* int64 *)
  pfr_ObjectHash : string;
  pfr_OverwriteIndex : option OverwriteIndex
}.

Record PutFileRecords := mkPutFileRecords {
  Split : bool;
  Records : list PutFileRecord
}.

Inductive Delimiter := Delimiter_NONE | Delimiter_JSON | Delimiter_LINE.

Inductive Scope := Scope_NONE | Scope_READER | Scope_WRITER | Scope_OWNER.

(** ** Errors and results *)

Inductive error :=
| ErrNotFound (key : string)                      (* col.ErrNotFound *)
| ErrExists (key : string)                        (* col.ErrExists *)
| ErrCommitNotFound (c : Commit)                  (* pfsserver.ErrCommitNotFound *)
| ErrCommitFinished (c : Commit)                  (* pfsserver.ErrCommitFinished *)
| ErrNotAuthorized (repo : string) (required : Scope)
| ErrExternal (service : string)                  (* object store, auth, unmarshalling *)
| ErrTree (code : nat)                            (* an error of package hashtree *)
| Errorf (msg : string).                          (* fmt.Errorf *)

(** A Go call returns a value, returns an error, or faults (a nil
    pointer dereference panics). *)
Inductive outcome (A : Type) :=
| Ok (a : A)
| Err (e : error)
| Panic.
Arguments Ok {A} a.
Arguments Err {A} e.
Arguments Panic {A}.

#[global] Instance outcome_ret : MRet outcome := fun A a => Ok a.
#[global] Instance outcome_bind : MBind outcome := fun A B f m =>
  match m with
  | Ok a => f a
  | Err e => Err e
  | Panic => Panic
  end.

Definition is_Ok {A} (o : outcome A) : Prop := exists a, o = Ok a.

(** [err.(col.ErrNotFound)] *)
Definition IsErrNotFound (e : error) : bool :=
  match e with ErrNotFound _ => true | _ => false end.

(** ** The coordination store

    The collections of the driver over the transactional key-value
    store, and the scratch space, whose keys are kept in ascending
    mod-revision order. *)

Inductive ScratchValue :=
| Tombstone                              (* the literal "delete" *)
| Marshalled (rs : PutFileRecords)       (* records.Marshal() *)
| Undecodable.                           (* bytes that do not unmarshal *)

Record State := mkState {
  repos : gmap string RepoInfo;
  repoRefCounts : gmap string Z;
  commits : gmap string (gmap string CommitInfo);    (* per repo *)
  branches : gmap string (gmap string Commit);       (* per repo *)
  openCommits : gmap string Commit;
  scratch : list (string * ScratchValue)
}.

Definition set_repos (f : gmap string RepoInfo -> gmap string RepoInfo) (s : State) : State :=
  mkState (f (repos s)) (repoRefCounts s) (commits s) (branches s) (openCommits s) (scratch s).
Definition set_repoRefCounts (f : gmap string Z -> gmap string Z) (s : State) : State :=
  mkState (repos s) (f (repoRefCounts s)) (commits s) (branches s) (openCommits s) (scratch s).
Definition set_commits (repo : string)
    (f : gmap string CommitInfo -> gmap string CommitInfo) (s : State) : State :=
  mkState (repos s) (repoRefCounts s) (<[repo := f (commits s !!! repo)]> (commits s))
          (branches s) (openCommits s) (scratch s).
Definition set_branches (repo : string)
    (f : gmap string Commit -> gmap string Commit) (s : State) : State :=
  mkState (repos s) (repoRefCounts s) (commits s)
          (<[repo := f (branches s !!! repo)]> (branches s)) (openCommits s) (scratch s).
Definition set_openCommits (f : gmap string Commit -> gmap string Commit) (s : State) : State :=
  mkState (repos s) (repoRefCounts s) (commits s) (branches s) (f (openCommits s)) (scratch s).
Definition set_scratch
    (f : list (string * ScratchValue) -> list (string * ScratchValue)) (s : State) : State :=
  mkState (repos s) (repoRefCounts s) (commits s) (branches s) (openCommits s) (f (scratch s)).

(** Modelled from the spec: the typed collections of package [collection]
    (spec 4.1), which is not part of the sources at hand: point
    [Get]/[Put]/[Create]/[Delete] with typed [ErrNotFound], [DeleteAll],
    and integer counters with [Create]/[Increment(By)]/[Decrement(By)]. *)
Module col.
Section Collection.
Context {V : Type}.
Implicit Types (m : gmap string V) (key : string).

Definition Get m key : outcome V :=
  match m !! key with
  | Some v => Ok v
  | None => Err (ErrNotFound key)
  end.

Definition Put m key (v : V) : outcome (gmap string V) := Ok (<[key := v]> m).

Definition Create m key (v : V) : outcome (gmap string V) :=
  match m !! key with
  | Some _ => Err (ErrExists key)
  | None => Ok (<[key := v]> m)
  end.

Definition Delete m key : outcome (gmap string V) :=
  match m !! key with
  | Some _ => Ok (delete key m)
  | None => Err (ErrNotFound key)
  end.

Definition DeleteAll m : gmap string V := ∅.
End Collection.

Definition IncrementBy (m : gmap string Z) (key : string) (n : Z) : outcome (gmap string Z) :=
  match m !! key with
  | Some v => Ok (<[key := v + n]> m)
  | None => Err (ErrNotFound key)
  end.

Definition DecrementBy (m : gmap string Z) (key : string) (n : Z) : outcome (gmap string Z) :=
  match m !! key with
  | Some v => Ok (<[key := v - n]> m)
  | None => Err (ErrNotFound key)
  end.

Definition Increment (m : gmap string Z) (key : string) := IncrementBy m key 1.
Definition Decrement (m : gmap string Z) (key : string) := DecrementBy m key 1.
End col.

(** [etcdClient.Put], [Get] and [Delete] with [WithPrefix] on the scratch
    keys. A put gives its key the newest mod-revision. *)
Definition etcd_Put (key : string) (v : ScratchValue) (kvs : list (string * ScratchValue)) :=
  (List.filter (fun kv => negb (String.eqb (fst kv) key)) kvs ++ [(key, v)])%list.

Definition etcd_GetPrefix (prefix : string) (kvs : list (string * ScratchValue)) :=
  List.filter (fun kv => Go.HasPrefix (fst kv) prefix) kvs.

Definition etcd_DeletePrefix (prefix : string) (kvs : list (string * ScratchValue)) :=
  List.filter (fun kv => negb (Go.HasPrefix (fst kv) prefix)) kvs.

(** ** The hashtree interface

    Package [hashtree] is an external collaborator: the driver only calls
    its methods. Finished trees ([HashTree]) and open trees
    ([OpenHashTree]) are two types; an open tree is updated in place, which
    is a new tree here. *)

Inductive TreeErrCode := PathNotFound | OtherTreeError.

Definition tree_error (c : TreeErrCode) : error :=
  ErrTree (match c with PathNotFound => 1%nat | OtherTreeError => 0%nat end).

Record NodeProto := mkNode {
  node_Name : string;
  node_SubtreeSize : Z;
  node_FileNode : option (list Object)      (* the objects of a file node *)
}.

Class HashTreeAPI (HashTree OpenHashTree : Type) := {
  NewFinished : HashTree;                   (* hashtree.NewHashTree().Finish() *)
  Open : HashTree -> OpenHashTree;
  Finish : OpenHashTree -> option HashTree;
  FSSize : HashTree -> Z;
  Serialize : HashTree -> option string;
  Deserialize : string -> option HashTree;
  Diff : HashTree -> HashTree -> list (string * NodeProto * bool);
  tree_Get : OpenHashTree -> string -> TreeErrCode + NodeProto;
  tree_List : OpenHashTree -> string -> TreeErrCode + list NodeProto;   (* by name *)
  PutFile : OpenHashTree -> string -> list Object -> Z -> TreeErrCode + OpenHashTree;
  PutFileOverwrite :
    OpenHashTree -> string -> list Object -> OverwriteIndex -> Z -> TreeErrCode + OpenHashTree;
  DeleteFile : OpenHashTree -> string -> TreeErrCode + OpenHashTree
}.

(** ** Services outside the driver: authorization, the object store, the
    tree cache, and the driver's own configuration. *)

Inductive AuthReply := Authorized | Denied | NotActivated | AuthFailed.

Record Env (HashTree : Type) := mkEnv {
  etcdPrefix : string;                              (* d.prefix *)
  ChunkSize : Z;                                    (* pfs.ChunkSize *)
  Authorize : string -> Scope -> AuthReply;
  WhoAmI : AuthReply;
  SetACL : string -> AuthReply;
  GetObject : string -> option string;
  PutObject : string -> option (Object * Z);
  PutObjectSplit : string -> option (list Object * Z);
  DecodeJSON : string -> option (list string);      (* the values of a json.Decoder *)
  treeCache : string -> option HashTree
}.
Arguments etcdPrefix {HashTree} _.
Arguments ChunkSize {HashTree} _.
Arguments Authorize {HashTree} _ _ _.
Arguments WhoAmI {HashTree} _.
Arguments SetACL {HashTree} _ _.
Arguments GetObject {HashTree} _ _.
Arguments PutObject {HashTree} _ _.
Arguments PutObjectSplit {HashTree} _ _.
Arguments DecodeJSON {HashTree} _ _.
Arguments treeCache {HashTree} _ _.

(** ** The driver *)

Record File := mkFile { file_Commit : Commit; file_Path : string }.

(** [uuid.UUIDWithoutDashesLength] *)
Definition UUIDWithoutDashesLength : Z := 32.

Definition tombstone : string := "delete".
Definition splitSuffixBase : Z := 16.

Definition is_repo_char (c : ascii) : bool :=
  let n := Z.of_N (N_of_ascii c) in
  ((48 <=? n) && (n <=? 57)) || ((97 <=? n) && (n <=? 122)) || ((65 <=? n) && (n <=? 90))
  || (n =? 95) || (n =? 45).

Fixpoint all_chars (p : ascii -> bool) (s : string) : bool :=
  match s with
  | EmptyString => true
  | String c s' => p c && all_chars p s'
  end.

(** [ValidateRepoName]: the name matches [^[a-zA-Z0-9_-]+$]. *)
Definition ValidateRepoName (name : string) : outcome unit :=
  if negb (String.eqb name EmptyString) && all_chars is_repo_char name then Ok tt
  else Err (Errorf ("repo name (" +:+ name +:+
         ") invalid: only alphanumeric characters, underscores, and dashes are allowed")).

(** [parseCommitID]: the ID component and the depth of the ancestor that
    a commit ID with the Git ancestry syntax names. *)
Definition parseCommitID (commitID : string) : string * Z :=
  match Go.IndexAny commitID "^~" with
  | None => (commitID, 0)
  | Some sepIndex =>
      match Go.index commitID sepIndex with
      | None => (commitID, 0)
      | Some sep =>
          let strAfterSep := Go.drop (S sepIndex) commitID in
          match Go.Atoi strAfterSep with
          | Some intAfterSep => (Go.take sepIndex commitID, intAfterSep)
          | None =>
              if all_chars (Ascii.eqb sep) strAfterSep
              then (Go.take sepIndex commitID, Go.len commitID - Z.of_nat sepIndex)
              else (commitID, 0)
          end
      end
  end.

(** [checkPath] *)
Definition checkPath (path : string) : outcome unit :=
  if Go.Contains path (String zero EmptyString)
  then Err (Errorf ("filename cannot contain null character: " +:+ path))
  else Ok tt.

Section Driver.
Context {HashTree OpenHashTree : Type} `{!HashTreeAPI HashTree OpenHashTree}.
Variable d : Env HashTree.

(** [checkIsAuthorized]: an error unless the caller has scope [s] on
    repo [r]; an auth service that is not activated permits the call. *)
Definition checkIsAuthorized (r : Repo) (s : Scope) : outcome unit :=
  match Authorize d (Repo_Name r) s with
  | Authorized => Ok tt
  | Denied => Err (ErrNotAuthorized (Repo_Name r) s)
  | NotActivated => Ok tt
  | AuthFailed =>
      Err (Errorf ("error during authorization check for operation on " +:+ Repo_Name r))
  end.

(** The loop of [inspectCommit]: one iteration reads the record of
    [nextCommit] and moves to its parent. *)
Fixpoint inspectCommit_loop (st : State) (commit : Commit) (iters : nat)
    (nextCommit : option Commit) (commitInfo : option CommitInfo)
    : outcome (option CommitInfo) :=
  match iters with
  | O => Ok commitInfo
  | S iters' =>
      match nextCommit with
      | None => Err (ErrCommitNotFound commit)
      | Some next =>
          match (commits st !!! Repo_Name (Commit_Repo commit)) !! Commit_ID next with
          | None => Err (ErrCommitNotFound next)
          | Some info => inspectCommit_loop st commit iters' (ci_ParentCommit info) (Some info)
          end
      end
  end.

(** [inspectCommit] returns the [CommitInfo] of a commit and, as a side
    effect, replaces the ID in the given commit with a real commit ID:
    the commit as the call leaves it is the second component. It only
    reads the store. The loop [for i := 0; i <= ancestryLength; i++] runs
    [ancestryLength + 1] times, and not at all for a negative length,
    which leaves [commitInfo] nil for the dereference after it. *)
Definition inspectCommit (st : State) (commit : option Commit)
    : outcome (CommitInfo * Commit) :=
  match commit with
  | None => Err (Errorf "cannot inspect nil commit")
  | Some commit =>
      _ ← checkIsAuthorized (Commit_Repo commit) Scope_READER;
      let '(commitID, ancestryLength) := parseCommitID (Commit_ID commit) in
      let commitID :=
        match (branches st !!! Repo_Name (Commit_Repo commit)) !! commitID with
        | Some head => Commit_ID head
        | None => commitID
        end in
      let nextCommit := mkCommit (Commit_Repo commit) commitID in
      commitInfo ← inspectCommit_loop st commit (Z.to_nat (ancestryLength + 1))
                     (Some nextCommit) None;
      match commitInfo with
      | None => Panic
      | Some info => Ok (info, mkCommit (Commit_Repo commit) (Commit_ID (ci_Commit info)))
      end
  end.

(** [getTreeForCommit]. The tree cache is read; adding to it is not
    modelled, the cache being one of the services of [d]. On a miss
    [inspectCommit] rewrites the ID of the commit it is given, which the
    callers go on using: the commit as the call leaves it is the second
    component. *)
Definition getTreeForCommit (st : State) (commit : option Commit)
    : outcome (HashTree * option Commit) :=
  match commit with
  | None => Ok (NewFinished, None)
  | Some commit =>
      if String.eqb (Commit_ID commit) EmptyString then Ok (NewFinished, Some commit)
      else
        match treeCache d (Commit_ID commit) with
        | Some h => Ok (h, Some commit)
        | None =>
            '(_, commit) ← inspectCommit st (Some commit);
            commitInfo ← col.Get (commits st !!! Repo_Name (Commit_Repo commit))
                                 (Commit_ID commit);
            match ci_Finished commitInfo with
            | None => Err (Errorf "cannot read from an open commit")
            | Some _ =>
                match ci_Tree commitInfo with
                | None => Ok (NewFinished, Some commit)
                | Some treeRef =>
                    match GetObject d (Object_Hash treeRef) with
                    | None => Err (ErrExternal "object store")
                    | Some buf =>
                        match Deserialize buf with
                        | None => Err (ErrExternal "hashtree")
                        | Some h => Ok (h, Some commit)
                        end
                    end
                end
            end
        end
  end.

(** [sizeChange] *)
Definition sizeChange (tree parentTree : HashTree) : Z :=
  fold_left (fun result '(_, node, new) =>
               match node_FileNode node with
               | Some _ => if new : bool then Go.wrapU64 (result + Go.wrapU64 (node_SubtreeSize node))
                           else result
               | None => result
               end)
            (Diff tree parentTree) 0.

Definition scratchPrefix : string := Go.Join [etcdPrefix d; "scratch"].

(** [scratchCommitPrefix]; the commit as [inspectCommit] leaves it is
    returned with the prefix. *)
Definition scratchCommitPrefix (st : State) (commit : Commit) : outcome (string * Commit) :=
  '(_, commit) ← inspectCommit st (Some commit);
  Ok (Go.Join [scratchPrefix; Repo_Name (Commit_Repo commit); Commit_ID commit], commit).

Definition scratchFilePrefix (file : File) : string :=
  Go.Join [scratchPrefix; Repo_Name (Commit_Repo (file_Commit file));
           Commit_ID (file_Commit file); file_Path file].

(** [filePathFromEtcdPath]: [split[3:]] faults on fewer than three
    pieces. *)
Definition filePathFromEtcdPath (etcdPath : string) : outcome string :=
  let trimmed := Go.TrimPrefix etcdPath scratchPrefix in
  let split := Go.SplitSlash trimmed in
  if (length split <? 3)%nat then Panic else Ok (Go.Join (List.skipn 3 split)).

(** A transaction of the store: the writes of [body] take effect
    when it returns no error, and none of them otherwise. *)
Definition NewSTM {A} (st : State) (body : outcome (State * A)) : State * outcome A :=
  match body with
  | Ok (st', a) => (st', Ok a)
  | Err e => (st, Err e)
  | Panic => (st, Panic)
  end.

Fixpoint foldM {A B} (f : B -> A -> outcome B) (l : list A) (b : B) : outcome B :=
  match l with
  | [] => Ok b
  | x :: l' => b' ← f b x; foldM f l' b'
  end.

(** [listRepo] without the access levels ([includeAuth] false), which
    is how the driver itself calls it. The order is that of the
    collection's iterator. *)
Definition has_provenance (info : RepoInfo) (reqProv : Repo) : bool :=
  existsb (fun prov => String.eqb (Repo_Name reqProv) (Repo_Name prov)) (ri_Provenance info).

Definition listRepo (st : State) (provenance : list Repo) : outcome (list RepoInfo) :=
  _ ← foldM (fun _ prov => _ ← col.Get (repos st) (Repo_Name prov); Ok tt) provenance tt;
  Ok (List.filter (fun info => forallb (has_provenance info) provenance)
                  ((map_to_list (repos st)).*2)).

(** [listBranch] *)
Definition listBranch (st : State) (repo : Repo) : outcome (list BranchInfo) :=
  _ ← checkIsAuthorized repo Scope_READER;
  Ok (List.map (fun '(branchName, head) => mkBranchInfo (Go.Base branchName) head)
               (map_to_list (branches st !!! Repo_Name repo))).

(** *** Repositories *)

(** The transaction of [createRepo]. The provenance map of the code is
    a set of names; Go leaves the order in which it is ranged over
    open, and [elements] fixes one. *)
Definition createRepo_stm (st : State) (repo : Repo) (provenance : list Repo)
    (description : string) (now : Timestamp) : outcome (State * unit) :=
  _ ← match repos st !! Repo_Name repo with
      | Some _ => Err (Errorf ("cannot create " +:+ Repo_Name repo +:+ " as it already exists"))
      | None => Ok tt
      end;
  _ ← match WhoAmI d with
      | Authorized =>
          match SetACL d (Repo_Name repo) with
          | Authorized => Ok tt
          | _ => Err (Errorf ("could not create ACL for new repo " +:+ Repo_Name repo))
          end
      | NotActivated => Ok tt
      | _ => Err (Errorf ("error while creating repo " +:+ Repo_Name repo))
      end;
  (* compute the full provenance of this repo *)
  fullProv ← foldM (fun (fullProv : gset string) prov =>
                      provRepo ← col.Get (repos st) (Repo_Name prov);
                      (* the provenance of my provenance is my provenance *)
                      Ok (list_to_set (Repo_Name <$> ri_Provenance provRepo)
                            ∪ ({[Repo_Name prov]} ∪ fullProv)))
                   provenance ∅;
  let fullProvRepos := mkRepo <$> elements fullProv in
  counts ← foldM (fun counts prov => col.Increment counts prov)
                 (elements fullProv) (repoRefCounts st);
  counts ← col.Create counts (Repo_Name repo) 0;
  let repoInfo := mkRepoInfo repo now 0 fullProvRepos description in
  repos' ← col.Create (repos st) (Repo_Name repo) repoInfo;
  Ok (set_repos (fun _ => repos') (set_repoRefCounts (fun _ => counts) st), tt).

(** The provenance of one downstream repo as [updateRepo] patches it. *)
Definition add_prov (provs : list Repo) (newProv : string) : list Repo :=
  if existsb (fun prov => String.eqb newProv (Repo_Name prov)) provs then provs
  else (provs ++ [mkRepo newProv])%list.

Fixpoint remove_prov (provs : list Repo) (oldProv : string) : list Repo :=
  match provs with
  | [] => []
  | prov :: rest =>
      if String.eqb oldProv (Repo_Name prov) then rest else prov :: remove_prov rest oldProv
  end.

Definition patch_downstream (provToAdd provToRemove : gset string) (info : RepoInfo)
    : RepoInfo :=
  let provs := fold_left add_prov (elements provToAdd) (ri_Provenance info) in
  let provs := fold_left remove_prov (elements provToRemove) provs in
  mkRepoInfo (ri_Repo info) (ri_Created info) (ri_SizeBytes info) provs (ri_Description info).

(** The transaction of [updateRepo]. [listRepo] reads the store as it
    was before the transaction. *)
Definition updateRepo_stm (st : State) (repo : Repo) (provenance : list Repo)
    (description : string) : outcome (State * unit) :=
  repoInfo ← match repos st !! Repo_Name repo with
             | Some info => Ok info
             | None => Err (Errorf ("error updating repo: " +:+ Repo_Name repo +:+ " not found"))
             end;
  _ ← checkIsAuthorized repo Scope_WRITER;
  let newNames : gset string := list_to_set (Repo_Name <$> provenance) in
  let oldNames : gset string := list_to_set (Repo_Name <$> ri_Provenance repoInfo) in
  let provToAdd := newNames ∖ oldNames in
  let provToRemove := oldNames ∖ newNames in
  myRefCount ← col.Get (repoRefCounts st) (Repo_Name repo);
  (* +1 because we need to include ourselves *)
  let myRefCount := Go.wrap64 (myRefCount + 1) in
  counts ← foldM (fun counts newProv => col.IncrementBy counts newProv myRefCount)
                 (elements provToAdd) (repoRefCounts st);
  counts ← foldM (fun counts oldProv => col.DecrementBy counts oldProv myRefCount)
                 (elements provToRemove) counts;
  downstreamRepos ← listRepo st [repo];
  let repos' :=
    fold_left (fun (m : gmap string RepoInfo) info =>
                 let info' := patch_downstream provToAdd provToRemove info in
                 <[Repo_Name (ri_Repo info') := info']> m)
              downstreamRepos (repos st) in
  let repoInfo := mkRepoInfo (ri_Repo repoInfo) (ri_Created repoInfo) (ri_SizeBytes repoInfo)
                             provenance description in
  let repos' := <[Repo_Name repo := repoInfo]> repos' in
  Ok (set_repos (fun _ => repos') (set_repoRefCounts (fun _ => counts) st), tt).

Definition updateRepo (st : State) (repo : Repo) (provenance : list Repo)
    (description : string) : State * outcome unit :=
  NewSTM st (updateRepo_stm st repo provenance description).

(** [createRepo] *)
Definition createRepo (st : State) (repo : Repo) (provenance : list Repo)
    (description : string) (update : bool) (now : Timestamp) : State * outcome unit :=
  match ValidateRepoName (Repo_Name repo) with
  | Ok _ =>
      if update then updateRepo st repo provenance description
      else NewSTM st (createRepo_stm st repo provenance description now)
  | Err e => (st, Err e)
  | Panic => (st, Panic)
  end.

(** The transaction of [deleteRepo] *)
Definition deleteRepo_stm (st : State) (repo : Repo) (force : bool) : outcome (State * unit) :=
  (* Check if this repo is the provenance of some other repos *)
  _ ← (if force then Ok tt
       else
         refCount ← col.Get (repoRefCounts st) (Repo_Name repo);
         if refCount =? 0 then Ok tt
         else Err (Errorf "cannot delete the provenance of other repos"));
  repoInfo ← col.Get (repos st) (Repo_Name repo);
  counts ← foldM (fun counts prov =>
                    match col.Decrement counts (Repo_Name prov) with
                    | Ok counts' => Ok counts'
                    | Err e =>
                        (* Skip NotFound error, because it's possible that the
                           provenance repo has been deleted via --force. *)
                        if IsErrNotFound e then Ok counts else Err e
                    | Panic => Panic
                    end)
                 (ri_Provenance repoInfo) (repoRefCounts st);
  repos' ← col.Delete (repos st) (Repo_Name repo);
  counts ← col.Delete counts (Repo_Name repo);
  Ok (mkState repos' counts
              (<[Repo_Name repo := col.DeleteAll (commits st !!! Repo_Name repo)]> (commits st))
              (<[Repo_Name repo := col.DeleteAll (branches st !!! Repo_Name repo)]> (branches st))
              (openCommits st) (scratch st), tt).

(** [deleteRepo]: the ACL of the repo is cleared after the
    transaction. *)
Definition deleteRepo (st : State) (repo : Repo) (force : bool) : State * outcome unit :=
  match checkIsAuthorized repo Scope_OWNER with
  | Ok _ =>
      match NewSTM st (deleteRepo_stm st repo force) with
      | (st', Ok _) =>
          match SetACL d (Repo_Name repo) with
          | Authorized | NotActivated => (st', Ok tt)
          | _ => (st', Err (ErrExternal "auth"))
          end
      | (st', Err e) => (st', Err e)
      | (st', Panic) => (st', Panic)
      end
  | Err e => (st, Err e)
  | Panic => (st, Panic)
  end.

(** *** Commits *)

(** A pointer dereference: nil faults. *)
Definition deref {A} (p : option A) : outcome A :=
  match p with
  | Some a => Ok a
  | None => Panic
  end.

(** Operations that change the store and may fail half-way thread the
    store through, and keep what was written before the failure. *)
Definition M (A : Type) : Type := State -> State * outcome A.

Definition retM {A} (a : A) : M A := fun st => (st, Ok a).

Definition bindM {A B} (m : M A) (f : A -> M B) : M B := fun st =>
  match m st with
  | (st', Ok a) => f a st'
  | (st', Err e) => (st', Err e)
  | (st', Panic) => (st', Panic)
  end.

(** A call that only reads the store. *)
Definition readM {A} (f : State -> outcome A) : M A := fun st => (st, f st).

(** A transaction over the store. *)
Definition stmM {A} (body : State -> outcome (State * A)) : M A := fun st => NewSTM st (body st).

(** A write of [etcdClient] outside a transaction. *)
Definition writeM (f : State -> State) : M unit := fun st => (f st, Ok tt).

Notation "'do' x <- m 'in' k" := (bindM m (fun x => k))
  (at level 10, x pattern, m at level 100, k at level 200, only parsing).

Definition add_provenance (m : gmap string Commit) (cs : list Commit) : gmap string Commit :=
  fold_left (fun m c => <[Commit_ID c := c]> m) cs m.

(** The transaction of [makeCommit]. [commit] is the new commit and
    [built] the [treeRef] of [buildCommit] with its deserialised tree.
    [inspectCommit] and [getTreeForCommit] read the store as it was
    before the transaction. [parent] is one object throughout: its ID is
    assigned the head of the branch, then rewritten by [inspectCommit]
    and by [getTreeForCommit], and [commitInfo.ParentCommit] points to
    it. *)
Definition makeCommit_stm (st : State) (parent commit : Commit) (branch : string)
    (provenance : list Commit) (built : option (Object * HashTree))
    (started finished : Timestamp) : outcome (State * unit) :=
  let repoName := Repo_Name (Commit_Repo parent) in
  (* Check if repo exists *)
  repoInfo ← col.Get (repos st) repoName;
  (* Build the full provenance; my provenance's provenance is my provenance *)
  provenanceMap ← foldM (fun m prov =>
                           provCommitInfo ← col.Get (commits st !!! Repo_Name (Commit_Repo prov))
                                                    (Commit_ID prov);
                           Ok (add_provenance m (ci_Provenance provCommitInfo)))
                        provenance ∅;
  (* finally include the given provenance *)
  let provenanceMap := add_provenance provenanceMap provenance in
  let branches0 := branches st !!! repoName in
  let '(parent, branches') :=
    if String.eqb branch EmptyString then (parent, branches0)
    else
      (* If we don't have an explicit parent we use the previous head of
         branch as the parent, if it exists. *)
      let parent :=
        if String.eqb (Commit_ID parent) EmptyString then
          match branches0 !! branch with
          | Some head => mkCommit (Commit_Repo parent) (Commit_ID head)
          | None => parent
          end
        else parent in
      (* Make commit the new head of the branch *)
      (parent, <[branch := commit]> branches0) in
  '(parent, hasParent) ←
    (if String.eqb (Commit_ID parent) EmptyString then Ok (parent, false)
     else
       '(parentCommitInfo, parent) ← inspectCommit st (Some parent);
       (* fail if the parent commit has not been finished *)
       match ci_Finished parentCommitInfo with
       | None => Err (Errorf ("parent commit " +:+ Commit_ID parent +:+ " has not been finished"))
       | Some _ => Ok (parent, true)
       end);
  '(parentTree, parent) ← getTreeForCommit st (Some parent);
  let parentCommit := if hasParent : bool then parent else None in
  let commitInfo :=
    mkCommitInfo commit parentCommit started None 0 None ((map_to_list provenanceMap).*2) in
  let st1 := set_branches repoName (fun _ => branches') st in
  '(commitInfo, st2) ←
    match built with
    | Some (treeRef, tree) =>
        let info := mkCommitInfo commit parentCommit started (Some finished)
                      (Go.wrapU64 (FSSize tree)) (Some treeRef) (ci_Provenance commitInfo) in
        let repoInfo' := mkRepoInfo (ri_Repo repoInfo) (ri_Created repoInfo)
                           (Go.wrapU64 (ri_SizeBytes repoInfo + sizeChange tree parentTree))
                           (ri_Provenance repoInfo) (ri_Description repoInfo) in
        Ok (info, set_repos (fun m => <[repoName := repoInfo']> m) st1)
    | None =>
        Ok (commitInfo, set_openCommits (fun m => <[Commit_ID commit := commit]> m) st1)
    end;
  commits' ← col.Create (commits st2 !!! repoName) (Commit_ID commit) commitInfo;
  Ok (set_commits repoName (fun _ => commits') st2, tt).

(** [makeCommit], behind [startCommit] and [buildCommit]. [uuid] is the
    result of [uuid.NewWithoutDashes()], [started] and [finished] those
    of the two calls of [now()]. The authorization check reads
    [parent.Repo] before [parent] is compared with nil. *)
Definition makeCommit (parent : option Commit) (branch : string) (provenance : list Commit)
    (treeRef : option Object) (uuid : string) (started finished : Timestamp) : M Commit :=
  do _ <- readM (fun _ => p ← deref parent; checkIsAuthorized (Commit_Repo p) Scope_WRITER) in
  do parent <- readM (fun _ => match parent with
                            | None => Err (Errorf "parent cannot be nil")
                            | Some p => Ok p
                            end) in
  let commit := mkCommit (Commit_Repo parent) uuid in
  do built <- readM (fun _ =>
             match treeRef with
             | None => Ok None
             | Some ref =>
                 match GetObject d (Object_Hash ref) with
                 | None => Err (ErrExternal "object store")
                 | Some buf =>
                     match Deserialize buf with
                     | None => Err (ErrExternal "hashtree")
                     | Some t => Ok (Some (ref, t))
                     end
                 end
             end) in
  do _ <- stmM (fun st => makeCommit_stm st parent commit branch provenance built
                         started finished) in
  retM commit.

Definition startCommit (parent : option Commit) (branch : string) (provenance : list Commit)
    (uuid : string) (started finished : Timestamp) : M Commit :=
  makeCommit parent branch provenance None uuid started finished.

Definition buildCommit (parent : option Commit) (branch : string) (provenance : list Commit)
    (tree : option Object) (uuid : string) (started finished : Timestamp) : M Commit :=
  makeCommit parent branch provenance tree uuid started finished.

(** *** The write-apply engine *)

(** The size delta of an overwrite: the sizes of the objects at and
    beyond the index are taken off, [sizeMap] giving 0 for an object it
    does not know. [objects[i]] faults on a negative index. *)
Fixpoint overwrite_delta (sizeMap : gmap string Z) (objects : list Object) (i : Z)
    (fuel : nat) (delta : Z) : outcome Z :=
  match fuel with
  | O => Ok delta
  | S fuel' =>
      if i <? Z.of_nat (length objects) then
        if i <? 0 then Panic
        else
          match objects !! Z.to_nat i with
          | Some o =>
              overwrite_delta sizeMap objects (i + 1) fuel'
                (Go.wrap64 (delta - default 0 (sizeMap !! Object_Hash o)))
          | None => Panic
          end
      else Ok delta
  end.

(** The records of a batch that is not split, in order. *)
Definition applyRecord (filePath : string) (acc : gmap string Z * OpenHashTree)
    (record : PutFileRecord) : outcome (gmap string Z * OpenHashTree) :=
  let '(sizeMap, tree) := acc in
  let sizeMap := <[pfr_ObjectHash record := pfr_SizeBytes record]> sizeMap in
  match pfr_OverwriteIndex record with
  | Some overwriteIndex =>
      (* Computing size delta *)
      delta ← match tree_Get tree filePath with
              | inr fileNode =>
                  objects ← deref (node_FileNode fileNode);
                  overwrite_delta sizeMap objects (Index overwriteIndex)
                                  (S (length objects)) (pfr_SizeBytes record)
              | inl _ => Ok (pfr_SizeBytes record)   (* can't find the file: that's fine *)
              end;
      match PutFileOverwrite tree filePath [mkObject (pfr_ObjectHash record)]
                             overwriteIndex delta with
      | inr tree' => Ok (sizeMap, tree')
      | inl code => Err (tree_error code)
      end
  | None =>
      match PutFile tree filePath [mkObject (pfr_ObjectHash record)] (pfr_SizeBytes record) with
      | inr tree' => Ok (sizeMap, tree')
      | inl code => Err (tree_error code)
      end
  end.

(** The records of a split batch: record [i] becomes the file
    [Sprintf(splitSuffixFmt, i+int(indexOffset))] under [filePath]. *)
Fixpoint putSplitRecords (tree : OpenHashTree) (filePath : string) (indexOffset : Z)
    (i : Z) (records : list PutFileRecord) : outcome OpenHashTree :=
  match records with
  | [] => Ok tree
  | record :: rest =>
      match PutFile tree
              (Go.Join [filePath; Go.Sprintf_016x (Go.wrap64 (i + indexOffset))])
              [mkObject (pfr_ObjectHash record)] (pfr_SizeBytes record) with
      | inr tree' => putSplitRecords tree' filePath indexOffset (i + 1) rest
      | inl code => Err (tree_error code)
      end
  end.

(** The index after the last child of [filePath], 0 without children. *)
Definition splitIndexOffset (tree : OpenHashTree) (filePath : string) : outcome Z :=
  nodes ← match tree_List tree filePath with
          | inr nodes => Ok nodes
          | inl PathNotFound => Ok []
          | inl code => Err (tree_error code)
          end;
  match List.last (Some <$> nodes) None with
  | Some lastNode =>
      match Go.ParseInt (Go.Base (node_Name lastNode)) splitSuffixBase with
      | Some indexOffset =>
          Ok (Go.wrap64 (indexOffset + 1))   (* start writing to the file after the last file *)
      | None =>
          Err (Errorf ("error parsing filename " +:+ Go.Base (node_Name lastNode) +:+
                 " as int, this likely means you're using split on a directory which " +:+
                 "contains other data that wasn't put with split"))
      end
  | None => Ok 0
  end.

(** One key of the scratch space applied to the open tree. *)
Definition applyWrite (acc : gmap string Z * OpenHashTree) (kv : string * ScratchValue)
    : outcome (gmap string Z * OpenHashTree) :=
  let '(sizeMap, tree) := acc in
  (* fileStr is going to look like "some/path/UUID" *)
  fileStr ← filePathFromEtcdPath (fst kv);
  (* the last element of parts is going to be UUID *)
  let parts := Go.SplitSlash fileStr in
  (* filePath should look like "some/path" *)
  let filePath := Go.JoinSlash (removelast parts) in
  match snd kv with
  | Tombstone =>
      match DeleteFile tree filePath with
      | inr tree' => Ok (sizeMap, tree')
      | inl PathNotFound => Ok (sizeMap, tree)
      | inl code => Err (tree_error code)
      end
  | Undecodable => Err (ErrExternal "unmarshal")
  | Marshalled records =>
      if negb (Split records) then
        match Records records with
        | [] => Err (Errorf "unexpect 0 length pfs.PutFileRecord (this is likely a bug)")
        | rs => foldM (applyRecord filePath) rs (sizeMap, tree)
        end
      else
        indexOffset ← splitIndexOffset tree filePath;
        tree' ← putSplitRecords tree filePath indexOffset 0 (Records records);
        Ok (sizeMap, tree')
  end.

(** [applyWrites] *)
Definition applyWrites (kvs : list (string * ScratchValue)) (tree : OpenHashTree)
    : outcome OpenHashTree :=
  acc ← foldM applyWrite kvs (∅, tree);
  Ok (snd acc).

(** *** Finishing and deleting commits, branches *)

(** What [finishCommit] computes before its transaction: the commit
    as the two [inspectCommit] calls leave it, the scratch prefix, the
    [CommitInfo] to write and the growth of the repo.
    [commitInfo.ParentCommit] is the commit that [getTreeForCommit] is
    given, and is written back as that call leaves it. *)
Definition finishCommit_prepare (st : State) (commit : Commit) (finished : Timestamp)
    : outcome (Commit * string * CommitInfo * Z) :=
  _ ← checkIsAuthorized (Commit_Repo commit) Scope_WRITER;
  '(commitInfo, commit) ← inspectCommit st (Some commit);
  _ ← match ci_Finished commitInfo with
      | Some _ =>
          Err (Errorf ("commit " +:+ Repo_Name (Commit_Repo commit) +:+ "/" +:+
                       Commit_ID commit +:+ " has already been finished"))
      | None => Ok tt
      end;
  '(prefix, commit) ← scratchCommitPrefix st commit;
  (* Read everything under the scratch space for this commit *)
  let resp := etcd_GetPrefix prefix (scratch st) in
  '(parentTree, parentCommit) ← getTreeForCommit st (ci_ParentCommit commitInfo);
  tree ← applyWrites resp (Open parentTree);
  finishedTree ← match Finish tree with
                 | Some t => Ok t
                 | None => Err (ErrExternal "hashtree")
                 end;
  (* Serialize the tree *)
  data ← match Serialize finishedTree with
         | Some data => Ok data
         | None => Err (ErrExternal "hashtree")
         end;
  treeRef ← (if 0 <? Go.len data then
               (* Put the tree into the blob store *)
               match PutObject d data with
               | Some (obj, _) => Ok (Some obj)
               | None => Err (ErrExternal "object store")
               end
             else Ok (ci_Tree commitInfo));
  let commitInfo :=
    mkCommitInfo (ci_Commit commitInfo) parentCommit (ci_Started commitInfo)
                 (Some finished) (Go.wrapU64 (FSSize finishedTree)) treeRef
                 (ci_Provenance commitInfo) in
  Ok (commit, prefix, commitInfo, sizeChange finishedTree parentTree).

(** The transaction of [finishCommit] *)
Definition finishCommit_stm (st : State) (commit : Commit) (commitInfo : CommitInfo)
    (sizeChange : Z) : outcome (State * unit) :=
  let repoName := Repo_Name (Commit_Repo commit) in
  let st1 := set_commits repoName (fun m => <[Commit_ID commit := commitInfo]> m) st in
  open' ← match col.Delete (openCommits st1) (Commit_ID commit) with
          | Ok m => Ok m
          | Err _ =>
              Err (Errorf ("could not confirm that commit " +:+ Commit_ID commit +:+
                           " is open; this is likely a bug"))
          | Panic => Panic
          end;
  (* update repo size *)
  repoInfo ← col.Get (repos st1) repoName;
  let repoInfo := mkRepoInfo (ri_Repo repoInfo) (ri_Created repoInfo)
                    (Go.wrapU64 (ri_SizeBytes repoInfo + sizeChange))
                    (ri_Provenance repoInfo) (ri_Description repoInfo) in
  Ok (set_repos (fun m => <[repoName := repoInfo]> m) (set_openCommits (fun _ => open') st1), tt).

(** [finishCommit]; the result is the commit as the call leaves it,
    with its real ID. *)
Definition finishCommit (commit : Commit) (finished : Timestamp) : M Commit :=
  do (commit, prefix, commitInfo, sizeChange) <-
     readM (fun st => finishCommit_prepare st commit finished) in
  do _ <- stmM (fun st => finishCommit_stm st commit commitInfo sizeChange) in
  (* Delete the scratch space for this commit *)
  do _ <- writeM (set_scratch (etcd_DeletePrefix prefix)) in
  retM commit.

(** [setBranch]; the result is the commit as the call leaves it. *)
Definition setBranch (commit : Commit) (name : string) : M Commit :=
  do _ <- readM (fun _ => checkIsAuthorized (Commit_Repo commit) Scope_WRITER) in
  do (_, commit) <- readM (fun st => inspectCommit st (Some commit)) in
  do _ <- stmM (fun st =>
    let repoName := Repo_Name (Commit_Repo commit) in
    (* Make sure that the commit exists *)
    _ ← col.Get (commits st !!! repoName) (Commit_ID commit);
    Ok (set_branches repoName (fun m => <[name := commit]> m) st, tt)) in
  retM commit.

(** [deleteBranch] *)
Definition deleteBranch (repo : Repo) (name : string) : M unit :=
  do _ <- readM (fun _ => checkIsAuthorized repo Scope_WRITER) in
  stmM (fun st =>
    branches' ← col.Delete (branches st !!! Repo_Name repo) name;
    Ok (set_branches (Repo_Name repo) (fun _ => branches') st, tt)).

(** The branches of [deleteCommit]: a head that is the deleted commit
    moves to its parent, or the branch goes when there is none. The
    parent is one object for all the branches, so each [setBranch] sees
    the ID the one before left in it. *)
Fixpoint retargetBranches (commit : Commit) (commitID : string)
    (parentCommit : option Commit) (branches : list BranchInfo) : M unit :=
  match branches with
  | [] => retM tt
  | branch :: rest =>
      if String.eqb (Commit_ID (bi_Head branch)) commitID then
        match parentCommit with
        | Some parent =>
            do parent <- setBranch parent (bi_Name branch) in
            retargetBranches commit commitID (Some parent) rest
        | None =>
            (* If this commit doesn't have a parent, delete the branch *)
            do _ <- deleteBranch (Commit_Repo commit) (bi_Name branch) in
            retargetBranches commit commitID None rest
        end
      else retargetBranches commit commitID parentCommit rest
  end.

(** [deleteCommit]; the result is the commit as the call leaves it. *)
Definition deleteCommit (commit : Commit) : M Commit :=
  do _ <- readM (fun _ => checkIsAuthorized (Commit_Repo commit) Scope_WRITER) in
  do (commitInfo, commit) <- readM (fun st => inspectCommit st (Some commit)) in
  do _ <- readM (fun _ => match ci_Finished commitInfo with
                          | Some _ => Err (Errorf "cannot delete finished commit")
                          | None => Ok tt
                          end) in
  (* Delete the scratch space for this commit *)
  do (prefix, commit) <- readM (fun st => scratchCommitPrefix st commit) in
  do _ <- writeM (set_scratch (etcd_DeletePrefix prefix)) in
  (* If this commit is the head of a branch, make the commit's parent
     the head instead. *)
  do branches <- readM (fun st => listBranch st (Commit_Repo commit)) in
  do _ <- retargetBranches commit (Commit_ID (ci_Commit commitInfo))
                           (ci_ParentCommit commitInfo) branches in
  (* Delete the commit itself and subtract the size of the commit
     from repo size. *)
  do _ <- stmM (fun st =>
            let repoName := Repo_Name (Commit_Repo commit) in
            repoInfo ← col.Get (repos st) repoName;
            let repoInfo := mkRepoInfo (ri_Repo repoInfo) (ri_Created repoInfo)
                              (Go.wrapU64 (ri_SizeBytes repoInfo - ci_SizeBytes commitInfo))
                              (ri_Provenance repoInfo) (ri_Description repoInfo) in
            let st1 := set_repos (fun m => <[repoName := repoInfo]> m) st in
            commits' ← col.Delete (commits st1 !!! repoName) (Commit_ID commit);
            Ok (set_commits repoName (fun _ => commits') st1, tt)) in
  retM commit.

(** *** Files *)

(** [deleteFile]: a tombstone in the scratch space of an open commit.
    The result is the file as the call leaves it. *)
Definition deleteFile (file : File) (uuid : string) : M File :=
  do _ <- readM (fun _ => checkIsAuthorized (Commit_Repo (file_Commit file)) Scope_WRITER) in
  do (commitInfo, commit) <- readM (fun st => inspectCommit st (Some (file_Commit file))) in
  let file := mkFile commit (file_Path file) in
  do _ <- readM (fun _ => match ci_Finished commitInfo with
                          | Some _ => Err (ErrCommitFinished (file_Commit file))
                          | None => Ok tt
                          end) in
  let prefix := scratchFilePrefix file in
  do _ <- writeM (set_scratch (etcd_Put (Go.Join [prefix; uuid]) Tombstone)) in
  retM file.

(** The commit IDs that [putFile] takes for real ones without looking
    them up: the length of a UUID and a 4 as 13th character. *)
Definition looksLikeCommitID (id : string) : bool :=
  (Go.len id =? UUIDWithoutDashesLength) &&
  match Go.index id 12 with
  | Some c => Ascii.eqb c "4"
  | None => false
  end.

(** [putRecords] in [putFile]: one etcd transaction that writes the
    records only if the commit is in [openCommits]. *)
Definition putRecords (file : File) (prefix uuid : string) (records : PutFileRecords) : M unit :=
  fun st =>
    match openCommits st !! Commit_ID (file_Commit file) with
    | Some _ => (set_scratch (etcd_Put (Go.Join [prefix; uuid]) (Marshalled records)) st, Ok tt)
    | None => (st, Err (Errorf ("commit " +:+ Commit_ID (file_Commit file) +:+ " is not open")))
    end.

(** The records of a file that is not split: every object but the last
    is taken to have [ChunkSize] bytes. *)
Fixpoint chunkRecords (objects : list Object) (size : Z) (i : nat)
    (overwriteIndex : option OverwriteIndex) : list PutFileRecord :=
  match objects with
  | [] => []
  | object :: rest =>
      let sizeBytes := if ChunkSize d <? size then ChunkSize d else size in
      let size := Go.wrap64 (size - ChunkSize d) in
      (* The first record takes care of the overwriting *)
      let overwrite :=
        match i, overwriteIndex with
        | O, Some oi => if Index oi =? 0 then None else Some oi
        | _, _ => None
        end in
      mkPutFileRecord sizeBytes (Object_Hash object) overwrite
        :: chunkRecords rest size (S i) overwriteIndex
  end.

(** [bufio.Reader.ReadBytes(10)] until the end of the input: every
    line with its newline, then what is left with [io.EOF]. *)
Fixpoint readLines (s cur : string) : list (string * bool) :=
  match s with
  | EmptyString => [(String.rev cur, true)]
  | String c s' =>
      if Ascii.eqb c "010" then (String.rev (String c cur), false) :: readLines s' EmptyString
      else readLines s' (String c cur)
  end.

(** The datums that the loop of [putFile] reads, the last one with
    [EOF]. *)
Definition readDatums (delimiter : Delimiter) (reader : string)
    : outcome (list (string * bool)) :=
  match delimiter with
  | Delimiter_JSON =>
      match DecodeJSON d reader with
      | Some values => Ok ((List.map (fun v => (v, false)) values ++ [(EmptyString, true)])%list)
      | None => Err (ErrExternal "json")
      end
  | Delimiter_LINE => Ok (readLines reader EmptyString)
  | Delimiter_NONE => Err (Errorf "unrecognized delimiter NONE")
  end.

(** The buffers that the loop of [putFile] hands to [PutObject]. *)
Fixpoint splitBuffers (targetFileDatums targetFileBytes : Z) (datums : list (string * bool))
    (buffer : string) (datumsWritten bytesWritten : Z) : list string :=
  match datums with
  | [] => []
  | (value, EOF) :: rest =>
      let buffer := buffer +:+ value in
      let bytesWritten := bytesWritten + Go.len value in
      let datumsWritten := datumsWritten + 1 in
      if negb (Go.len buffer =? 0) &&
         ((negb (targetFileBytes =? 0) && (targetFileBytes <=? bytesWritten)) ||
          (negb (targetFileDatums =? 0) && (targetFileDatums <=? datumsWritten)) ||
          ((targetFileBytes =? 0) && (targetFileDatums =? 0)) ||
          EOF)
      then buffer :: splitBuffers targetFileDatums targetFileBytes rest EmptyString 0 0
      else splitBuffers targetFileDatums targetFileBytes rest buffer datumsWritten bytesWritten
  end.

(** The records of [putFile], by delimiter. *)
Definition buildRecords (delimiter : Delimiter) (targetFileDatums targetFileBytes : Z)
    (overwriteIndex : option OverwriteIndex) (reader : string) : outcome PutFileRecords :=
  match delimiter with
  | Delimiter_NONE =>
      match PutObjectSplit d reader with
      | Some (objects, size) =>
          Ok (mkPutFileRecords false (chunkRecords objects size 0 overwriteIndex))
      | None => Err (ErrExternal "object store")
      end
  | _ =>
      datums ← readDatums delimiter reader;
      records ← foldM (fun acc buffer =>
                         match PutObject d buffer with
                         | Some (object, size) =>
                             Ok (acc ++ [mkPutFileRecord size (Object_Hash object) None])%list
                         | None => Err (ErrExternal "object store")
                         end)
                      (splitBuffers targetFileDatums targetFileBytes datums EmptyString 0 0) [];
      Ok (mkPutFileRecords true records)
  end.

(** [putFile]. [uuid1] names the tombstone of an overwrite from index
    0, [uuid2] the records. *)
Definition putFile (file : File) (delimiter : Delimiter)
    (targetFileDatums targetFileBytes : Z) (overwriteIndex : option OverwriteIndex)
    (reader : string) (uuid1 uuid2 : string) : M unit :=
  do _ <- readM (fun _ => checkIsAuthorized (Commit_Repo (file_Commit file)) Scope_WRITER) in
  (* Check if the commit ID is a branch name.  If so, we have to get the
     real commit ID in order to check if the commit does exist and is open. *)
  do file <- readM (fun st =>
               if looksLikeCommitID (Commit_ID (file_Commit file)) then Ok file
               else
                 '(commitInfo, _) ← inspectCommit st (Some (file_Commit file));
                 Ok (mkFile (ci_Commit commitInfo) (file_Path file))) in
  do file <- match overwriteIndex with
             | Some oi => if Index oi =? 0 then deleteFile file uuid1 else retM file
             | None => retM file
             end in
  do _ <- readM (fun _ => checkPath (file_Path file)) in
  let prefix := scratchFilePrefix file in
  do records <- readM (fun _ => buildRecords delimiter targetFileDatums targetFileBytes
                                  overwriteIndex reader) in
  putRecords file prefix uuid2 records.

(** *** Listing commits *)

(** A loop of at most [n] rounds; a round goes on ([inl]) or leaves
    the loop ([inr]). *)
Fixpoint loop_pos {S R} (n : positive) (body : S -> S + R) (s : S) : S + R :=
  match n with
  | xH => body s
  | xO n' =>
      match loop_pos n' body s with
      | inl s' => loop_pos n' body s'
      | inr r => inr r
      end
  | xI n' =>
      match body s with
      | inl s' =>
          match loop_pos n' body s' with
          | inl s'' => loop_pos n' body s''
          | inr r => inr r
          end
      | inr r => inr r
      end
  end.

Definition loop_N {S R} (n : N) (body : S -> S + R) (s : S) : S + R :=
  match n with
  | N0 => inl s
  | Npos p => loop_pos p body s
  end.

(** One round of the walk of [listCommit] from [to] down the parents. *)
Definition listCommit_round (st : State) (repo : Repo) (from : option Commit)
    (s : option Commit * list CommitInfo)
    : (option Commit * list CommitInfo) + outcome (list CommitInfo) :=
  let '(cursor, commitInfos) := s in
  match cursor with
  | None => inr (Ok commitInfos)
  | Some cursor =>
      if match from with
         | Some from => String.eqb (Commit_ID cursor) (Commit_ID from)
         | None => false
         end
      then inr (Ok commitInfos)
      else
        match (commits st !!! Repo_Name repo) !! Commit_ID cursor with
        | Some commitInfo =>
            inl (ci_ParentCommit commitInfo, (commitInfos ++ [commitInfo])%list)
        | None => inr (Err (ErrNotFound (Commit_ID cursor)))
        end
  end.

(** [listCommit]; [number] is a [uint64]. Without [from] and [to] the
    commits come in the order of the collection's iterator. *)
Definition listCommit (st : State) (repo : Repo) (to from : option Commit) (number : N)
    : outcome (list CommitInfo) :=
  _ ← checkIsAuthorized repo Scope_READER;
  _ ← (if match from with
          | Some from => negb (String.eqb (Repo_Name (Commit_Repo from)) (Repo_Name repo))
          | None => false
          end
       || match to with
          | Some to => negb (String.eqb (Repo_Name (Commit_Repo to)) (Repo_Name repo))
          | None => false
          end
       then Err (Errorf ("`from` and `to` commits need to be from repo " +:+ Repo_Name repo))
       else Ok tt);
  (* Make sure that the repo exists *)
  _ ← col.Get (repos st) (Repo_Name repo);
  (* Make sure that both from and to are valid commits *)
  from ← match from with
         | Some from => '(_, from) ← inspectCommit st (Some from); Ok (Some from)
         | None => Ok None
         end;
  to ← match to with
       | Some to => '(_, to) ← inspectCommit st (Some to); Ok (Some to)
       | None => Ok None
       end;
  (* if number is 0, we return all commits that match the criteria *)
  let number := if (number =? 0)%N then Z.to_N Go.MaxUint64 else number in
  match from, to with
  | Some _, None => Err (Errorf "cannot use `from` commit without `to` commit")
  | None, None =>
      let all := (map_to_list (commits st !!! Repo_Name repo)).*2 in
      Ok (if (N.of_nat (length all) <=? number)%N then all else firstn (N.to_nat number) all)
  | _, Some _ =>
      match loop_N number (listCommit_round st repo from) (to, []) with
      | inl (_, commitInfos) => Ok commitInfos
      | inr result => result
      end
  end.

End Driver.

(** ** Notions the properties are stated with *)

(** *** Ancestry syntax *)

(** The reading of a commit ID [base sep rest], with [sep] the first
    [^] or [~]: the integer after the separator if one parses, else the
    number of separators if [rest] repeats [sep], else the whole ID at
    depth 0. *)
Definition ancestry (base : string) (sep : ascii) (rest : string) : string * Z :=
  match Go.Atoi rest with
  | Some n => (base, n)
  | None =>
      if all_chars (Ascii.eqb sep) rest
      then (base, Z.of_nat (S (String.length rest)))
      else (base +:+ String sep rest, 0)
  end.

(** The [n]-th ancestor of the commit [id] of a repo: [n] parent links
    from the record of [id]; nothing when a record or a link is
    missing. *)
Fixpoint nth_ancestor (st : State) (repoName id : string) (n : nat) : option CommitInfo :=
  match (commits st !!! repoName) !! id with
  | None => None
  | Some info =>
      match n with
      | O => Some info
      | S n' =>
          match ci_ParentCommit info with
          | None => None
          | Some parent => nth_ancestor st repoName (Commit_ID parent) n'
          end
      end
  end.

(** The token of a reference after the branch lookup. *)
Definition resolve_branch (st : State) (repoName token : string) : string :=
  match (branches st !!! repoName) !! token with
  | Some head => Commit_ID head
  | None => token
  end.

(** A commit ID that names its own record: no ancestry suffix, not the
    name of a branch, and the key of a record that carries it. *)
Definition names_itself (st : State) (repoName id : string) : Prop :=
  parseCommitID id = (id, 0) /\
  (branches st !!! repoName) !! id = None /\
  forall info, (commits st !!! repoName) !! id = Some info -> Commit_ID (ci_Commit info) = id.

(** *** Chains of commits *)

(** A loop of [n] rounds, counted in unary. *)
Fixpoint loop_nat {S R} (n : nat) (body : S -> S + R) (s : S) : S + R :=
  match n with
  | O => inl s
  | Datatypes.S n' =>
      match body s with
      | inl s' => loop_nat n' body s'
      | inr r => inr r
      end
  end.

(** The commits that [listCommit] walks from [cursor]: parent after
    parent, until there is no parent, the ID [stop] is met, or [limit]
    commits are collected. *)
Inductive Chain (st : State) (repoName : string) (stop : option string)
  : option Commit -> N -> list CommitInfo -> Prop :=
| Chain_limit cursor : Chain st repoName stop cursor 0%N []
| Chain_root limit : Chain st repoName stop None limit []
| Chain_stop c limit :
    stop = Some (Commit_ID c) -> Chain st repoName stop (Some c) limit []
| Chain_step c limit info rest :
    (0 < limit)%N ->
    stop <> Some (Commit_ID c) ->
    (commits st !!! repoName) !! Commit_ID c = Some info ->
    Chain st repoName stop (ci_ParentCommit info) (N.pred limit) rest ->
    Chain st repoName stop (Some c) limit (info :: rest).

Definition stop_id (from : option Commit) : option string := Commit_ID <$> from.

(** The limit of [listCommit]: [number], and [MaxUint64] for 0. *)
Definition limit_of (number : N) : N :=
  if (number =? 0)%N then Z.to_N Go.MaxUint64 else number.

(** [c'] is what [inspectCommit] leaves of the optional commit [c]. *)
Definition resolved {HashTree} (d : Env HashTree) (st : State) (c c' : option Commit) : Prop :=
  match c with
  | None => c' = None
  | Some x => exists info x', inspectCommit d st (Some x) = Ok (info, x') /\ c' = Some x'
  end.

Definition same_repo (repo : Repo) (c : option Commit) : Prop :=
  match c with
  | None => True
  | Some x => Repo_Name (Commit_Repo x) = Repo_Name repo
  end.

(** *** New commits *)

(** The record that [makeCommit] created for [commit] has the parent
    [parentCommit]. *)
Definition created_with_parent (st' : State) (commit : Commit) (parentCommit : option Commit)
    : Prop :=
  exists info,
    (commits st' !!! Repo_Name (Commit_Repo commit)) !! Commit_ID commit = Some info /\
    ci_Commit info = commit /\
    ci_ParentCommit info = parentCommit.

(** [parent] resolves to a finished commit, and [parent''] is that
    commit, or what [inspectCommit] makes of it once more when its tree
    is read. *)
Definition finished_parent {HashTree} (d : Env HashTree) (st : State) (parent parent'' : Commit)
    : Prop :=
  exists info parent',
    inspectCommit d st (Some parent) = Ok (info, parent') /\
    is_Some (ci_Finished info) /\
    (parent'' = parent' \/
     exists info', inspectCommit d st (Some parent') = Ok (info', parent'')).

(** *** Provenance and refcounts *)

Definition prov_names (info : RepoInfo) : list string := Repo_Name <$> ri_Provenance info.

(** The provenance of every repo holds the provenance of each repo in
    it: if R depends on S and S on T, then T is in the provenance of
    R. *)
Definition provenance_closed (rs : gmap string RepoInfo) : Prop :=
  forall r s ri si,
    rs !! r = Some ri -> s ∈ prov_names ri -> rs !! s = Some si ->
    forall t, t ∈ prov_names si -> t ∈ prov_names ri.

(** Every repo named in a provenance exists. *)
Definition provenance_exists (rs : gmap string RepoInfo) : Prop :=
  forall r ri s, rs !! r = Some ri -> s ∈ prov_names ri -> is_Some (rs !! s).

(** How often [name] occurs in a provenance list. *)
Definition occurrences (name : string) (provs : list Repo) : Z :=
  Z.of_nat (length (List.filter (fun prov => String.eqb (Repo_Name prov) name) provs)).

(** The decrement of [deleteRepo] on the counters: nothing happens to a
    counter that is missing. *)
Definition decrement_all (provs : list Repo) (counts : gmap string Z) : gmap string Z :=
  fold_left (fun m prov => alter (fun v => v - 1) (Repo_Name prov) m) provs counts.

(** An overwrite from index 0, which makes [putFile] write a tombstone
    first. *)
Definition from_start (overwriteIndex : option OverwriteIndex) : bool :=
  match overwriteIndex with
  | Some oi => Index oi =? 0
  | None => false
  end.

(** *** Split files *)



Section Specs.
Context {HashTree OpenHashTree : Type} `{!HashTreeAPI HashTree OpenHashTree}.
Variable d : Env HashTree.



(** What [finishCommit] makes of the record [old] of an open commit:
    [Finished] is set, [SizeBytes] is the size of the finished tree, and
    [Tree] the stored object of the serialised tree, or what it was when
    the tree serialises to nothing. *)
Definition finished_record (old new : CommitInfo) (finished : Timestamp) : Prop :=
  ci_Finished old = None /\
  ci_Finished new = Some finished /\
  ci_Commit new = ci_Commit old /\
  exists (finishedTree : HashTree) data,
    Serialize finishedTree = Some data /\
    ci_SizeBytes new = Go.wrapU64 (FSSize finishedTree) /\
    ci_Tree new = (if 0 <? Go.len data then fst <$> PutObject d data else ci_Tree old) /\
    ((0 <? Go.len data) = true -> is_Some (ci_Tree new)).

End Specs.

(** *** Open commits *)

(** A call that leaves [openCommits] as it finds it, whatever it
    returns. *)
Definition keeps_open {A} (m : M A) : Prop :=
  forall st, openCommits (fst (m st)) = openCommits st.

(** ** A small hashtree and a small set of services, to run the driver on *)
Module Fixture.

(** Files by cleaned absolute path, in the order of the paths, each
    with its objects and its size. *)
Definition Tree := list (string * (list Object * Z)).

Definition canon (p : string) : string := Go.Clean ("/" +:+ p).

Definition dir_of (p : string) : string :=
  let dir := Go.JoinSlash (removelast (Go.SplitSlash p)) in
  if String.eqb dir EmptyString then "/" else dir.

Fixpoint insert_file (p : string) (f : list Object * Z) (t : Tree) : Tree :=
  match t with
  | [] => [(p, f)]
  | (q, g) :: rest =>
      if String.eqb p q then (p, ((fst g ++ fst f)%list, snd g + snd f)) :: rest
      else if String.ltb p q then (p, f) :: t
      else (q, g) :: insert_file p f rest
  end.

Definition file_node (e : string * (list Object * Z)) : NodeProto :=
  mkNode (Go.Base (fst e)) (snd (snd e)) (Some (fst (snd e))).

Definition Get (t : Tree) (p : string) : TreeErrCode + NodeProto :=
  match List.find (fun e => String.eqb (fst e) (canon p)) t with
  | Some e => inr (file_node e)
  | None => inl PathNotFound
  end.

Definition List (t : Tree) (p : string) : TreeErrCode + list NodeProto :=
  match List.filter (fun e => String.eqb (dir_of (fst e)) (canon p)) t with
  | [] => inl PathNotFound
  | es => inr (file_node <$> es)
  end.

Definition under (p : string) (e : string * (list Object * Z)) : bool :=
  String.eqb (fst e) p || Go.HasPrefix (fst e) (p +:+ "/").

Definition Delete (t : Tree) (p : string) : TreeErrCode + Tree :=
  if existsb (under (canon p)) t
  then inr (List.filter (fun e => negb (under (canon p) e)) t)
  else inl PathNotFound.

Definition Overwrite (t : Tree) (p : string) (objects : list Object) (oi : OverwriteIndex)
    (delta : Z) : TreeErrCode + Tree :=
  match List.find (fun e => String.eqb (fst e) (canon p)) t with
  | Some (_, (old, size)) =>
      inr (insert_file (canon p) ((firstn (Z.to_nat (Index oi)) old ++ objects)%list, size + delta)
             (List.filter (fun e => negb (String.eqb (fst e) (canon p))) t))
  | None => inr (insert_file (canon p) (objects, delta) t)
  end.

Definition diff (t parent : Tree) : list (string * NodeProto * bool) :=
  (((fun e => (fst e, file_node e, true)) <$>
      List.filter (fun e => negb (existsb (fun e' => String.eqb (fst e) (fst e')) parent)) t)
   ++ ((fun e => (fst e, file_node e, false)) <$>
         List.filter (fun e => negb (existsb (fun e' => String.eqb (fst e) (fst e')) t)) parent))%list.

#[global] Instance tree_api : HashTreeAPI Tree Tree := {|
  NewFinished := [];
  Open := fun t => t;
  Finish := fun t => Some t;
  FSSize := fun t => fold_left (fun acc e => acc + snd (snd e)) t 0;
  Serialize := fun t => Some (fold_left (fun acc e => acc +:+ fst e) t EmptyString);
  Deserialize := fun _ => None;
  Diff := diff;
  tree_Get := Get;
  tree_List := List;
  PutFile := fun t p objects size => inr (insert_file (canon p) (objects, size) t);
  PutFileOverwrite := Overwrite;
  DeleteFile := Delete
|}.

(** The object store cuts its input into chunks of [size] bytes and
    names an object after its content. *)
Fixpoint chunks (fuel : nat) (size : nat) (s : string) : list Object :=
  match fuel with
  | O => []
  | S fuel' =>
      if String.eqb s EmptyString then []
      else mkObject (Go.take size s) :: chunks fuel' size (Go.drop size s)
  end.

(** Services with the auth service not activated and a tree cache that
    holds [cached]. *)
Definition services (cached : string -> option Tree) : Env Tree := {|
  etcdPrefix := "/pfs";
  ChunkSize := 4;
  Authorize := fun _ _ => NotActivated;
  WhoAmI := NotActivated;
  SetACL := fun _ => NotActivated;
  GetObject := fun _ => None;
  PutObject := fun data => Some (mkObject data, Go.len data);
  PutObjectSplit := fun reader => Some (chunks (String.length reader) 4 reader, Go.len reader);
  DecodeJSON := fun _ => None;
  treeCache := cached
|}.

Definition env : Env Tree := services (fun _ => None).

Definition empty : State := mkState ∅ ∅ ∅ ∅ ∅ [].

Definition repo (name : string) : Repo := mkRepo name.

(** Two identifiers as [uuid.NewWithoutDashes] makes them. *)
Definition id1 : string := "0123456789ab4def0123456789abcde1".
Definition id2 : string := "0123456789ab4def0123456789abcde2".

(** Scenario S1: repos a, b on a, c on b. *)
Definition s1_a := fst (createRepo env empty (repo "a") [] EmptyString false 1).
Definition s1_b := fst (createRepo env s1_a (repo "b") [repo "a"] EmptyString false 2).
Definition s1_c := fst (createRepo env s1_b (repo "c") [repo "b"] EmptyString false 3).

(** Repos t, s on t, and r on nothing; then r is updated to depend on
    s. *)
Definition u_t := createRepo env empty (repo "t") [] EmptyString false 1.
Definition u_s := createRepo env (fst u_t) (repo "s") [repo "t"] EmptyString false 2.
Definition u_r := createRepo env (fst u_s) (repo "r") [] EmptyString false 3.
Definition u_upd := createRepo env (fst u_r) (repo "r") [repo "s"] EmptyString true 4.

(** Scenario S2: a repo r, a first commit on master, a file, and the
    commit finished. *)
Definition master : Commit := mkCommit (repo "r") "master".
Definition no_parent : Commit := mkCommit (repo "r") EmptyString.
Definition c1 : Commit := mkCommit (repo "r") id1.
Definition c2 : Commit := mkCommit (repo "r") id2.

Definition c_repo := fst (createRepo env empty (repo "r") [] EmptyString false 1).
Definition c_open := fst (startCommit env (Some no_parent) "master" [] id1 2 2 c_repo).
Definition c_put :=
  fst (putFile env (mkFile c1 "/x") Delimiter_NONE 0 0 None "hello" "u1" "u2" c_open).
Definition c_finished := fst (finishCommit env master 3 c_put).

Definition info1 : CommitInfo :=
  mkCommitInfo c1 None 2 (Some 3) 5 (Some (mkObject "/x")) [].

(** A second commit on master, with the tree of the first in the
    cache. *)
Definition tree1 : Tree := [("/x", ([mkObject "hell"; mkObject "o"], 5))].
Definition env_warm : Env Tree :=
  services (fun id => if String.eqb id id1 then Some tree1 else None).
Definition c_second := fst (startCommit env_warm (Some no_parent) "master" [] id2 4 4 c_finished).

Definition info2 : CommitInfo := mkCommitInfo c2 (Some c1) 4 None 0 None [].

(** The first commit deleted while open, and a write to it after. *)
Definition c_deleted := deleteCommit env c1 c_open.
Definition c_put_deleted :=
  putFile env (mkFile c1 "/x") Delimiter_NONE 0 0 None "hello" "u1" "u2" (fst c_deleted).


End Fixture.

(** The goal is a failed call that changed nothing. *)
Ltac failed_unchanged :=
  cbn [fst snd]; split; [done|]; split; [by intros [? ?]|]; try done.

(** * Properties *)

(** ** The Go library functions on examples *)

Example Atoi_42 : Go.Atoi "42" = Some 42.
Proof. reflexivity. Qed.
Example Atoi_neg : Go.Atoi "-2" = Some (-2).
Proof. reflexivity. Qed.
Example Atoi_empty : Go.Atoi EmptyString = None.
Proof. reflexivity. Qed.
Example Atoi_big : Go.Atoi "9223372036854775808" = None.
Proof. reflexivity. Qed.
Example ParseInt_hex : Go.ParseInt "00000000000000ff" 16 = Some 255.
Proof. reflexivity. Qed.
Example Sprintf_255 : Go.Sprintf_016x 255 = "00000000000000ff".
Proof. reflexivity. Qed.
Example Sprintf_0 : Go.Sprintf_016x 0 = "0000000000000000".
Proof. reflexivity. Qed.
Example Sprintf_neg : Go.Sprintf_016x (-4) = "-000000000000004".
Proof. reflexivity. Qed.
Example Join_ex : Go.Join ["/pfs/scratch"; "r"; "c"; "/a/b/"] = "/pfs/scratch/r/c/a/b".
Proof. reflexivity. Qed.
Example Join_dots : Go.Join ["a"; "../../b"; EmptyString] = "../b".
Proof. reflexivity. Qed.
Example Base_ex : Go.Base "/a/b/" = "b".
Proof. reflexivity. Qed.
Example Split_ex : Go.SplitSlash "/r/c/x" = [EmptyString; "r"; "c"; "x"].
Proof. reflexivity. Qed.
Example parse_master2 : parseCommitID "master^2" = ("master", 2).
Proof. reflexivity. Qed.
Example parse_master_tildes : parseCommitID "master~~" = ("master", 2).
Proof. reflexivity. Qed.
Example parse_master5 : parseCommitID "master~5" = ("master", 5).
Proof. reflexivity. Qed.
Example parse_master_plain : parseCommitID "master" = ("master", 0).
Proof. reflexivity. Qed.
Example parse_master_word : parseCommitID "master~whatever" = ("master~whatever", 0).
Proof. reflexivity. Qed.
Example parse_master_mixed : parseCommitID "master^~" = ("master^~", 0).
Proof. reflexivity. Qed.

(** ** Facts about strings and numbers *)

Lemma length_app_string (a b : string) :
  String.length (a +:+ b) = (String.length a + String.length b)%nat.
Proof. induction a as [|c a IH]; simpl; [done|by rewrite IH]. Qed.

Lemma app_assoc_string (a b c : string) : (a +:+ b) +:+ c = a +:+ (b +:+ c).
Proof.
  induction a as [|x a IH]; [done|].
  change (String x ((a +:+ b) +:+ c) = String x (a +:+ (b +:+ c))). by f_equal.
Qed.

Lemma IndexAny_app base c rest chars :
  Go.IndexAny base chars = None -> Go.mem c chars = true ->
  Go.IndexAny (base +:+ String c rest) chars = Some (String.length base).
Proof.
  induction base as [|b base IH]; simpl; intros Hnone Hmem.
  - by rewrite Hmem.
  - destruct (Go.mem b chars); [done|].
    destruct (Go.IndexAny base chars) eqn:E; [done|].
    by rewrite IH.
Qed.

Lemma index_app_length base c rest :
  Go.index (base +:+ String c rest) (String.length base) = Some c.
Proof. unfold Go.index. induction base as [|b base IH]; simpl; [done|apply IH]. Qed.

Lemma take_app_length base s : Go.take (String.length base) (base +:+ s) = base.
Proof. induction base as [|b base IH]; simpl; [by destruct s|by rewrite IH]. Qed.

Lemma drop_after_sep base sep rest :
  Go.drop (S (String.length base)) (base +:+ String sep rest) = rest.
Proof. induction base as [|b base IH]; simpl; [done|apply IH]. Qed.

Lemma HasPrefix_app s p q : Go.HasPrefix s (p +:+ q) = true -> Go.HasPrefix s p = true.
Proof.
  revert s. induction p as [|c p IH]; intros s; [by destruct s|].
  destruct s as [|c' s]; simpl; [done|].
  intros [-> H]%andb_true_iff. by rewrite (IH _ H).
Qed.





Lemma digit_val_hex_digit dg : 0 <= dg < 16 -> Go.digit_val (Go.hex_digit dg) = Some dg.
Proof.
  intros H.
  assert (dg = 0 \/ dg = 1 \/ dg = 2 \/ dg = 3 \/ dg = 4 \/ dg = 5 \/ dg = 6 \/ dg = 7 \/
          dg = 8 \/ dg = 9 \/ dg = 10 \/ dg = 11 \/ dg = 12 \/ dg = 13 \/ dg = 14 \/ dg = 15)
    as Hcases by lia.
  repeat destruct Hcases as [->|Hcases]; try reflexivity. by subst.
Qed.

Lemma hex_pos_S fuel n acc :
  Go.hex_pos (S fuel) n acc
  = if n / 16 =? 0 then String (Go.hex_digit (n mod 16)) acc
    else Go.hex_pos fuel (n / 16) (String (Go.hex_digit (n mod 16)) acc).
Proof. reflexivity. Qed.

Lemma hex_pos_app fuel n acc : Go.hex_pos fuel n acc = Go.hex_pos fuel n EmptyString +:+ acc.
Proof.
  revert n acc. induction fuel as [|fuel IH]; intros n acc; [done|].
  cbn [Go.hex_pos]. destruct (n / 16 =? 0); [done|].
  rewrite IH. rewrite (IH _ (String _ EmptyString)).
  rewrite app_assoc_string. done.
Qed.

Lemma parse_digits_app base s1 s2 acc :
  Go.parse_digits base (s1 +:+ s2) acc
  = match Go.parse_digits base s1 acc with
    | Some acc' => Go.parse_digits base s2 acc'
    | None => None
    end.
Proof.
  revert acc. induction s1 as [|c s1 IH]; intros acc; [done|].
  simpl. destruct (Go.digit_val c); [|done]. destruct (_ <? base); [apply IH|done].
Qed.

Lemma div16_bound n fuel :
  0 <= n < 16 ^ Z.of_nat (S (S fuel)) -> 0 <= n / 16 < 16 ^ Z.of_nat (S fuel).
Proof.
  intros Hn. split; [apply Z.div_pos; lia|]. apply Z.div_lt_upper_bound; [lia|].
  replace (Z.of_nat (S (S fuel))) with (Z.succ (Z.of_nat (S fuel))) in Hn by lia.
  rewrite Z.pow_succ_r in Hn by lia. lia.
Qed.

Lemma parse_hex_pos fuel n :
  0 <= n < 16 ^ Z.of_nat (S fuel) ->
  Go.parse_digits 16 (Go.hex_pos (S fuel) n EmptyString) 0 = Some n.
Proof.
  revert n. induction fuel as [|fuel IH]; intros n Hn.
  - cbn [Go.hex_pos]. change (16 ^ Z.of_nat 1) with 16 in Hn.
    replace (n / 16) with 0 by (symmetry; apply Z.div_small; lia). cbn [Z.eqb].
    rewrite Z.mod_small by lia. cbn [Go.parse_digits].
    rewrite digit_val_hex_digit by lia.
    destruct (n <? 16) eqn:E; [f_equal; lia|apply Z.ltb_ge in E; lia].
  - rewrite hex_pos_S.
    assert (0 <= n mod 16 < 16) as Hmod by (apply Z.mod_pos_bound; lia).
    assert (n = 16 * (n / 16) + n mod 16) as Hdiv by (apply Z.div_mod; lia).
    destruct (n / 16 =? 0) eqn:Hz.
    + apply Z.eqb_eq in Hz. cbn [Go.parse_digits]. rewrite digit_val_hex_digit by done.
      destruct (n mod 16 <? 16) eqn:E; [f_equal; lia|apply Z.ltb_ge in E; lia].
    + rewrite hex_pos_app, parse_digits_app.
      rewrite IH by (by apply div16_bound).
      cbn [Go.parse_digits]. rewrite digit_val_hex_digit by done.
      destruct (n mod 16 <? 16) eqn:E; [f_equal; lia|apply Z.ltb_ge in E; lia].
Qed.

Lemma length_hex_pos fuel n :
  (1 <= String.length (Go.hex_pos (S fuel) n EmptyString) <= S fuel)%nat.
Proof.
  revert n. induction fuel as [|fuel IH]; intros n.
  - cbn [Go.hex_pos]. destruct (n / 16 =? 0); simpl; lia.
  - rewrite hex_pos_S. destruct (n / 16 =? 0); [simpl; lia|].
    rewrite hex_pos_app, length_app_string.
    specialize (IH (n / 16)).
    change (String.length (String (Go.hex_digit (n mod 16)) EmptyString)) with 1%nat.
    lia.
Qed.

Lemma hex_pos_fuel fuel n acc :
  0 <= n < 16 ^ Z.of_nat (S fuel) ->
  Go.hex_pos (S (S fuel)) n acc = Go.hex_pos (S fuel) n acc.
Proof.
  revert n acc. induction fuel as [|fuel IH]; intros n acc Hn.
  - cbn [Go.hex_pos]. change (16 ^ Z.of_nat 1) with 16 in Hn.
    replace (n / 16) with 0 by (symmetry; apply Z.div_small; lia). done.
  - rewrite (hex_pos_S (S (S fuel)) n acc), (hex_pos_S (S fuel) n acc).
    destruct (n / 16 =? 0); [done|]. apply IH. by apply div16_bound.
Qed.

Lemma hex_16_digits n : 0 <= n < 16 ^ 16 -> Go.hex n = Go.hex_pos 16 n EmptyString.
Proof.
  intros Hn. unfold Go.hex.
  assert (forall k, (Go.hex_pos (16 + k) n EmptyString = Go.hex_pos 16 n EmptyString)) as H.
  { induction k as [|k IH]; [done|].
    replace (16 + S k)%nat with (S (S (15 + k))) by lia.
    rewrite hex_pos_fuel; [replace (S (15 + k)) with (16 + k)%nat by lia; done|].
    split; [lia|]. eapply Z.lt_le_trans; [apply Hn|].
    apply Z.pow_le_mono_r; lia. }
  apply (H 48%nat).
Qed.

Lemma parse_digits_zeros k s : Go.parse_digits 16 (Go.zeros k +:+ s) 0 = Go.parse_digits 16 s 0.
Proof. induction k as [|k IH]; [done|]. simpl. apply IH. Qed.

Lemma length_zeros k : String.length (Go.zeros k) = k.
Proof. induction k as [|k IH]; simpl; [done|by rewrite IH]. Qed.

(** The name of a split file is 16 characters long and parses back, in
    base 16, to the index it renders. *)
Lemma Sprintf_016x_roundtrip n :
  0 <= n < Go.two63 ->
  String.length (Go.Sprintf_016x n) = 16%nat /\
  Go.ParseInt (Go.Sprintf_016x n) 16 = Some n.
Proof.
  intros Hn. unfold Go.Sprintf_016x.
  destruct (n <? 0) eqn:E; [apply Z.ltb_lt in E; lia|].
  assert (0 <= n < 16 ^ 16) as Hn16 by (unfold Go.two63 in Hn; lia).
  rewrite hex_16_digits by done. unfold Go.pad_zero.
  pose proof (length_hex_pos 15 n) as Hlen.
  split.
  - rewrite length_app_string, length_zeros. lia.
  - set (s := Go.zeros _ +:+ _).
    assert (Go.parse_digits 16 s 0 = Some n) as Hparse.
    { subst s. rewrite parse_digits_zeros. apply parse_hex_pos. done. }
    assert (exists c s', s = String c s' /\ Ascii.eqb c "+" = false /\ Ascii.eqb c "-" = false)
      as (c & s' & Hs & Hplus & Hminus).
    { destruct s as [|c s'] eqn:Hs.
      - exfalso. subst s.
        assert (String.length (Go.zeros (16 - String.length (Go.hex_pos 16 n EmptyString)) +:+
                               Go.hex_pos 16 n EmptyString) = 0%nat) as Hz by (by rewrite Hs).
        rewrite length_app_string, length_zeros in Hz. lia.
      - exists c, s'. split; [done|].
        simpl in Hparse. destruct (Go.digit_val c) eqn:Ed; [|done].
        split; apply Ascii.eqb_neq; intros ->; done. }
    unfold Go.ParseInt. rewrite Hs, Hplus, Hminus. unfold Go.parse_unsigned.
    rewrite <- Hs, Hparse.
    destruct (n <? Go.two63) eqn:L; [done|apply Z.ltb_ge in L; lia].
Qed.

(** ** Inversion of successful calls *)

Lemma bind_Ok {A B} (m : outcome A) (f : A -> outcome B) b :
  m ≫= f = Ok b -> exists a, m = Ok a /\ f a = Ok b.
Proof. destruct m as [a|e|]; unfold mbind, outcome_bind; [eauto|done..]. Qed.

Lemma bindM_Ok {A B} (m : M A) (f : A -> M B) st st' b :
  bindM m f st = (st', Ok b) ->
  exists a st1, m st = (st1, Ok a) /\ f a st1 = (st', Ok b).
Proof.
  unfold bindM. destruct (m st) as [st1 [a| |]]; [|done..]. eauto.
Qed.

Lemma readM_Ok {A} (f : State -> outcome A) st st' a :
  readM f st = (st', Ok a) -> st' = st /\ f st = Ok a.
Proof. unfold readM. by intros [= -> ->]. Qed.

Lemma stmM_Ok {A} (body : State -> outcome (State * A)) st st' a :
  stmM body st = (st', Ok a) -> body st = Ok (st', a).
Proof.
  unfold stmM, NewSTM. destruct (body st) as [[st1 a1]| |]; [|done..]. by intros [= -> ->].
Qed.

Lemma writeM_Ok (f : State -> State) st st' u :
  writeM f st = (st', Ok u) -> st' = f st.
Proof. unfold writeM. by intros [= <-]. Qed.

Lemma retM_Ok {A} (a : A) st st' b : retM a st = (st', Ok b) -> st' = st /\ b = a.
Proof. unfold retM. by intros [= -> ->]. Qed.

(** ** Commit references (C3) *)

Lemma parseCommitID_plain id :
  Go.IndexAny id "^~" = None -> parseCommitID id = (id, 0).
Proof. unfold parseCommitID. by intros ->. Qed.

Lemma parseCommitID_ancestry base sep rest :
  Go.IndexAny base "^~" = None -> Go.mem sep "^~" = true ->
  parseCommitID (base +:+ String sep rest) = ancestry base sep rest.
Proof.
  intros Hbase Hsep. unfold parseCommitID, ancestry.
  rewrite (IndexAny_app _ _ _ _ Hbase Hsep), index_app_length.
  rewrite drop_after_sep, take_app_length.
  destruct (Go.Atoi rest); [done|].
  destruct (all_chars (Ascii.eqb sep) rest); [|done].
  f_equal. unfold Go.len. rewrite length_app_string. simpl. lia.
Qed.

Section InspectCommit.
Context {HashTree : Type} (d : Env HashTree).

Lemma inspectCommit_loop_found st commit n next info0 info :
  nth_ancestor st (Repo_Name (Commit_Repo commit)) (Commit_ID next) n = Some info ->
  inspectCommit_loop st commit (S n) (Some next) info0 = Ok (Some info).
Proof.
  revert next info0. induction n as [|n IH]; intros next info0; simpl.
  - destruct (_ !! Commit_ID next); [|done]. by intros [= ->].
  - destruct (_ !! Commit_ID next) as [i|]; [|done].
    destruct (ci_ParentCommit i) as [p|]; [|done].
    intros Hp. apply (IH p (Some i)) in Hp. exact Hp.
Qed.

Lemma inspectCommit_loop_missing st commit n next info0 :
  nth_ancestor st (Repo_Name (Commit_Repo commit)) (Commit_ID next) n = None ->
  exists c, inspectCommit_loop st commit (S n) (Some next) info0 = Err (ErrCommitNotFound c).
Proof.
  revert next info0. induction n as [|n IH]; intros next info0; simpl.
  - destruct (_ !! Commit_ID next); [done|]. eauto.
  - destruct (_ !! Commit_ID next) as [i|]; [|eauto].
    destruct (ci_ParentCommit i) as [p|]; [|eauto].
    intros Hp. apply (IH p (Some i)) in Hp. exact Hp.
Qed.

(** [inspectCommit] on a reference that parses to [token] at a depth
    [n] that is not negative. *)
Lemma inspectCommit_parsed st commit token n :
  checkIsAuthorized d (Commit_Repo commit) Scope_READER = Ok tt ->
  parseCommitID (Commit_ID commit) = (token, n) ->
  0 <= n ->
  let repoName := Repo_Name (Commit_Repo commit) in
  match nth_ancestor st repoName (resolve_branch st repoName token) (Z.to_nat n) with
  | Some info =>
      inspectCommit d st (Some commit)
      = Ok (info, mkCommit (Commit_Repo commit) (Commit_ID (ci_Commit info)))
  | None => exists c, inspectCommit d st (Some commit) = Err (ErrCommitNotFound c)
  end.
Proof.
  intros Hauth Hparse Hn repoName. unfold inspectCommit.
  rewrite Hauth, Hparse. cbn [mbind outcome_bind].
  replace (Z.to_nat (n + 1)) with (S (Z.to_nat n)) by lia.
  fold repoName. fold (resolve_branch st repoName token).
  destruct (nth_ancestor _ _ _ _) as [info|] eqn:E.
  - rewrite (inspectCommit_loop_found st commit _
               (mkCommit (Commit_Repo commit) (resolve_branch st repoName token)) None info E).
    done.
  - destruct (inspectCommit_loop_missing st commit _
               (mkCommit (Commit_Repo commit) (resolve_branch st repoName token)) None E)
      as [c ->].
    eauto.
Qed.

(** A negative depth, as in [master^-1]: the loop does not run, and the
    dereference of the nil [commitInfo] after it faults. *)
Lemma inspectCommit_negative st commit token n :
  checkIsAuthorized d (Commit_Repo commit) Scope_READER = Ok tt ->
  parseCommitID (Commit_ID commit) = (token, n) ->
  n < 0 ->
  inspectCommit d st (Some commit) = Panic.
Proof.
  intros Hauth Hparse Hn. unfold inspectCommit.
  rewrite Hauth, Hparse. cbn [mbind outcome_bind].
  replace (Z.to_nat (n + 1)) with O by lia. done.
Qed.

(** A commit ID that names its own record is what [inspectCommit]
    leaves in the commit. *)
Lemma inspectCommit_names_itself st repo id info c' :
  names_itself st (Repo_Name repo) id ->
  inspectCommit d st (Some (mkCommit repo id)) = Ok (info, c') ->
  c' = mkCommit repo id.
Proof.
  intros (Hparse & Hbranch & Hrecord). unfold inspectCommit. cbn [Commit_Repo Commit_ID].
  intros ([] & _ & H)%bind_Ok. rewrite Hparse, Hbranch in H. simpl in H.
  destruct ((commits st !!! Repo_Name repo) !! id) as [i|] eqn:E;
    cbn [mbind outcome_bind] in H; [|done].
  injection H as <- <-.
  by rewrite (Hrecord _ eq_refl).
Qed.

(** The part of the resolution of references that holds. A commit
    reference [base sep rest], [sep] being its first [^] or [~], reads
    as depth N: the integer after the separator when [rest] parses as
    one, else the number of separators when [rest] repeats [sep], else
    0 for the whole ID. For a depth that is not negative,
    [inspectCommit] replaces the token by the head of the branch it
    names, if any, then follows N parent links from there: it returns
    the record it reaches, and [ErrCommitNotFound] when a record or a
    link on the way is missing. *)
Theorem inspectCommit_ancestry st repo base sep rest :
  Go.IndexAny base "^~" = None ->
  Go.mem sep "^~" = true ->
  checkIsAuthorized d repo Scope_READER = Ok tt ->
  0 <= snd (ancestry base sep rest) ->
  let commit := mkCommit repo (base +:+ String sep rest) in
  let token := fst (ancestry base sep rest) in
  let N := Z.to_nat (snd (ancestry base sep rest)) in
  match nth_ancestor st (Repo_Name repo) (resolve_branch st (Repo_Name repo) token) N with
  | Some info =>
      inspectCommit d st (Some commit) = Ok (info, mkCommit repo (Commit_ID (ci_Commit info)))
  | None => exists c, inspectCommit d st (Some commit) = Err (ErrCommitNotFound c)
  end.
Proof.
  intros Hbase Hsep Hauth Hn commit token N.
  apply (inspectCommit_parsed st commit token (snd (ancestry base sep rest))); [done| |done].
  simpl. rewrite parseCommitID_ancestry by done. by destruct (ancestry base sep rest).
Qed.

End InspectCommit.

(** On the second commit of the fixture, [master^] is the first commit
    and [master^^] is not found. *)
Lemma inspectCommit_ancestry_witness :
  inspectCommit Fixture.env Fixture.c_second (Some (mkCommit (Fixture.repo "r") "master^"))
  = Ok (Fixture.info1, Fixture.c1).
Proof.
  pose proof (inspectCommit_ancestry Fixture.env Fixture.c_second (Fixture.repo "r")
                "master" "^" EmptyString eq_refl eq_refl eq_refl) as H.
  specialize (H ltac:(vm_compute; discriminate)).
  vm_compute in H. vm_compute. exact H.
Defined.

(** C3, at the input where it fails. On the second commit of the
    fixture the reference [master^-1] reads as the token [master] at
    depth -1, the integer after the separator, which [strconv.Atoi]
    parses with its sign. The branch master has a head and the head has
    its record, but the loop of [inspectCommit] does not run for a
    negative depth, and the dereference of the nil [commitInfo] after
    it faults: the call returns neither a record nor
    [ErrCommitNotFound]. *)
Theorem inspectCommit_negative_depth :
  parseCommitID "master^-1" = ("master", -1) /\
  ancestry "master" "^" "-1" = ("master", -1) /\
  (branches Fixture.c_second !!! "r") !! "master" = Some Fixture.c2 /\
  (commits Fixture.c_second !!! "r") !! Fixture.id2 = Some Fixture.info2 /\
  inspectCommit Fixture.env Fixture.c_second (Some (mkCommit (Fixture.repo "r") "master^-1"))
  = Panic.
Proof. repeat split; vm_compute; reflexivity. Qed.

(** ** Listing commits (C9) *)

Section Loops.
Context {S R : Type} (body : S -> S + R).

Lemma loop_nat_add n m s :
  loop_nat (n + m) body s =
  match loop_nat n body s with
  | inl s' => loop_nat m body s'
  | inr r => inr r
  end.
Proof.
  revert s. induction n as [|n IH]; intros s; simpl; [done|].
  destruct (body s); [apply IH|done].
Qed.

Lemma loop_pos_nat p s : loop_pos p body s = loop_nat (Pos.to_nat p) body s.
Proof.
  revert s. induction p as [p IH|p IH|]; intros s.
  - rewrite Pos2Nat.inj_xI. simpl. destruct (body s) as [s'|]; [|done].
    replace (Pos.to_nat p + (Pos.to_nat p + 0))%nat with (Pos.to_nat p + Pos.to_nat p)%nat by lia.
    rewrite loop_nat_add, <- IH. destruct (loop_pos p body s'); [apply IH|done].
  - rewrite Pos2Nat.inj_xO. simpl.
    replace (Pos.to_nat p + (Pos.to_nat p + 0))%nat with (Pos.to_nat p + Pos.to_nat p)%nat by lia.
    rewrite loop_nat_add, <- IH. destruct (loop_pos p body s); [apply IH|done].
  - simpl. by destruct (body s).
Qed.

Lemma loop_N_nat n s : loop_N n body s = loop_nat (N.to_nat n) body s.
Proof. destruct n; [done|apply loop_pos_nat]. Qed.

End Loops.

Lemma listCommit_round_chain st repo from cursor limit infos acc :
  Chain st (Repo_Name repo) (stop_id from) cursor limit infos ->
  match loop_nat (N.to_nat limit) (listCommit_round st repo from) (cursor, acc) with
  | inl (_, commitInfos) => Ok commitInfos
  | inr result => result
  end = Ok (acc ++ infos)%list.
Proof.
  intros HC. revert acc.
  induction HC as [cursor|limit|c limit Hstop|c limit info rest Hpos Hstop Hget HC IH]; intros acc.
  - simpl. by rewrite app_nil_r.
  - rewrite app_nil_r. destruct (N.to_nat limit); done.
  - rewrite app_nil_r. destruct (N.to_nat limit); [done|]. simpl.
    destruct from as [f|]; [|done]. injection Hstop as ->. by rewrite String.eqb_refl.
  - replace (N.to_nat limit) with (Datatypes.S (N.to_nat (N.pred limit))) by lia.
    simpl.
    assert (match from with
            | Some from0 => (Commit_ID c =? Commit_ID from0)%string
            | None => false
            end = false) as ->.
    { destruct from as [f|]; [|done]. apply String.eqb_neq. intros E. apply Hstop.
      simpl. by rewrite E. }
    rewrite Hget. rewrite IH. by rewrite <- app_assoc.
Qed.

Section ListCommit.
Context {HashTree : Type} (d : Env HashTree).

Lemma listCommit_from_without_to st repo from number :
  ~ is_Ok (listCommit d st repo None (Some from) number).
Proof.
  intros [infos H]. unfold listCommit in H.
  destruct (checkIsAuthorized d repo Scope_READER); [|done..].
  cbn [mbind outcome_bind] in H.
  destruct (negb _ || false); [done|]. cbn [mbind outcome_bind] in H.
  destruct (col.Get (repos st) (Repo_Name repo)); [|done..].
  cbn [mbind outcome_bind] in H.
  destruct (inspectCommit d st (Some from)) as [[??]| |]; done.
Qed.

(** [from] without [to], when the checks before it pass: the error of
    [listCommit] itself. *)
Lemma listCommit_from_without_to_error st repo from number :
  checkIsAuthorized d repo Scope_READER = Ok tt ->
  same_repo repo (Some from) ->
  is_Some (repos st !! Repo_Name repo) ->
  is_Ok (inspectCommit d st (Some from)) ->
  listCommit d st repo None (Some from) number
  = Err (Errorf "cannot use `from` commit without `to` commit").
Proof.
  intros Hauth Hfrom [ri Hrepo] [[info from'] Hinspect]. unfold listCommit.
  rewrite Hauth. cbn [mbind outcome_bind]. simpl in Hfrom. rewrite Hfrom, String.eqb_refl.
  cbn [negb orb mbind outcome_bind]. unfold col.Get. rewrite Hrepo.
  cbn [mbind outcome_bind]. rewrite Hinspect. done.
Qed.

(** C9. [listCommit] with [from] but no [to] returns no list, and
    once the checks before the walk pass (caller authorized, commits of
    this repo, repo and commits found) its error is that [from] cannot
    be used without [to]. With [to], once these checks pass, it
    returns the chain from [to] up the parents: [to], its parent, its
    grandparent and so on, that stops before the commit [from] and
    after [number] commits, [number] 0 standing for the largest
    [uint64]. *)
Theorem listCommit_chain st repo to from number to' from' infos :
  (forall from0 number0,
     ~ is_Ok (listCommit d st repo None (Some from0) number0) /\
     (checkIsAuthorized d repo Scope_READER = Ok tt ->
      same_repo repo (Some from0) ->
      is_Some (repos st !! Repo_Name repo) ->
      is_Ok (inspectCommit d st (Some from0)) ->
      listCommit d st repo None (Some from0) number0
      = Err (Errorf "cannot use `from` commit without `to` commit"))) /\
  (checkIsAuthorized d repo Scope_READER = Ok tt ->
   same_repo repo from -> same_repo repo (Some to) ->
   is_Some (repos st !! Repo_Name repo) ->
   resolved d st from from' ->
   resolved d st (Some to) (Some to') ->
   Chain st (Repo_Name repo) (stop_id from') (Some to') (limit_of number) infos ->
   listCommit d st repo (Some to) from number = Ok infos).
Proof.
  split.
  { intros from0 number0.
    split; [apply listCommit_from_without_to|apply listCommit_from_without_to_error]. }
  intros Hauth Hfrom Hto [ri Hrepo] Hrf (ti & to1 & Hit & Heq) HC.
  injection Heq as <-.
  unfold listCommit. rewrite Hauth. cbn [mbind outcome_bind].
  assert (match from with
          | Some from0 => negb (Repo_Name (Commit_Repo from0) =? Repo_Name repo)%string
          | None => false
          end = false) as ->.
  { destruct from as [f|]; [|done]. simpl in Hfrom. rewrite Hfrom.
    by rewrite String.eqb_refl. }
  simpl in Hto. rewrite Hto, String.eqb_refl. cbn [negb orb mbind outcome_bind].
  unfold col.Get. rewrite Hrepo. cbn [mbind outcome_bind].
  assert ((match from with
           | Some from0 => '(_, from1) ← inspectCommit d st (Some from0); Ok (Some from1)
           | None => Ok None
           end) = Ok from') as ->.
  { unfold resolved in Hrf. destruct from as [f|].
    - destruct Hrf as (fi & f' & Hif & ->). by rewrite Hif.
    - by subst. }
  cbn [mbind outcome_bind]. rewrite Hit. cbn [mbind outcome_bind].
  fold (limit_of number).
  assert (loop_N (limit_of number) (listCommit_round st repo from') (Some to', [])
          = loop_nat (N.to_nat (limit_of number)) (listCommit_round st repo from') (Some to', []))
    as Hloop by apply loop_N_nat.
  pose proof (listCommit_round_chain st repo from' (Some to') (limit_of number) infos [] HC) as H.
  rewrite <- Hloop in H. simpl in H.
  destruct from'; exact H.
Qed.

End ListCommit.

(** On the second commit of the fixture, [from] alone is refused; the
    chain from [master] is the second commit, then the first; from
    [master] down to the first commit, with at most five commits, it is
    the second commit alone. *)
Lemma listCommit_chain_witness :
  listCommit Fixture.env Fixture.c_second (Fixture.repo "r") None (Some Fixture.c1) 0
  = Err (Errorf "cannot use `from` commit without `to` commit") /\
  listCommit Fixture.env Fixture.c_second (Fixture.repo "r") (Some Fixture.master) None 0
  = Ok [Fixture.info2; Fixture.info1] /\
  listCommit Fixture.env Fixture.c_second (Fixture.repo "r") (Some Fixture.master)
             (Some Fixture.c1) 5
  = Ok [Fixture.info2].
Proof.
  split; [|split].
  - apply (proj2 (proj1 (listCommit_chain Fixture.env Fixture.c_second (Fixture.repo "r")
                           Fixture.master None 0 Fixture.c2 None []) Fixture.c1 0%N)).
    + reflexivity.
    + reflexivity.
    + vm_compute. eauto.
    + exists (Fixture.info1, Fixture.c1). vm_compute. reflexivity.
  - apply (proj2 (listCommit_chain Fixture.env Fixture.c_second (Fixture.repo "r")
                    Fixture.master None 0 Fixture.c2 None [Fixture.info2; Fixture.info1])).
    + reflexivity.
    + exact I.
    + reflexivity.
    + vm_compute. eauto.
    + reflexivity.
    + exists Fixture.info2, Fixture.c2. split; [vm_compute; reflexivity|reflexivity].
    + apply Chain_step; [reflexivity|discriminate|vm_compute; reflexivity|].
      apply Chain_step; [reflexivity|discriminate|vm_compute; reflexivity|].
      apply Chain_root.
  - apply (proj2 (listCommit_chain Fixture.env Fixture.c_second (Fixture.repo "r")
                    Fixture.master (Some Fixture.c1) 5 Fixture.c2 (Some Fixture.c1)
                    [Fixture.info2])).
    + reflexivity.
    + reflexivity.
    + reflexivity.
    + vm_compute. eauto.
    + exists Fixture.info1, Fixture.c1. split; [vm_compute; reflexivity|reflexivity].
    + exists Fixture.info2, Fixture.c2. split; [vm_compute; reflexivity|reflexivity].
    + apply Chain_step; [reflexivity|discriminate|vm_compute; reflexivity|].
      apply Chain_stop. reflexivity.
Defined.

(** ** Chunk sizes (C8) *)

Section PutFileRecords.
Context {HashTree : Type} (d : Env HashTree).




End PutFileRecords.


(** ** Deleting repos (C6) *)

Lemma Decrement_alter (counts : gmap string Z) key v :
  counts !! key = Some v -> <[key := v - 1]> counts = alter (fun v => v - 1) key counts.
Proof.
  intros H. apply map_eq. intros j. rewrite lookup_alter, lookup_insert.
  destruct (decide (key = j)) as [->|]; [by rewrite H|done].
Qed.

Lemma alter_missing (counts : gmap string Z) key :
  counts !! key = None -> alter (fun v => v - 1) key counts = counts.
Proof.
  intros H. apply map_eq. intros j. rewrite lookup_alter.
  destruct (decide (key = j)) as [->|]; [by rewrite H|done].
Qed.

Lemma deleteRepo_decrements provs (counts : gmap string Z) :
  foldM (fun counts prov =>
           match col.Decrement counts (Repo_Name prov) with
           | Ok counts' => Ok counts'
           | Err e => if IsErrNotFound e then Ok counts else Err e
           | Panic => Panic
           end) provs counts
  = Ok (decrement_all provs counts).
Proof.
  revert counts. induction provs as [|prov provs IH]; intros counts; [done|].
  cbn [foldM decrement_all fold_left]. unfold col.Decrement, col.DecrementBy.
  destruct (counts !! Repo_Name prov) as [v|] eqn:E; cbn [mbind outcome_bind IsErrNotFound].
  - rewrite (Decrement_alter _ _ _ E). apply IH.
  - rewrite (alter_missing _ _ E). apply IH.
Qed.

Lemma decrement_all_lookup provs (counts : gmap string Z) name :
  decrement_all provs counts !! name = (fun v => v - occurrences name provs) <$> counts !! name.
Proof.
  revert counts. induction provs as [|prov provs IH]; intros counts.
  - unfold occurrences. simpl. destruct (counts !! name); simpl; f_equal; lia.
  - cbn [decrement_all fold_left]. fold (decrement_all provs). rewrite IH.
    rewrite lookup_alter. unfold occurrences. cbn [List.filter].
    destruct (decide (Repo_Name prov = name)) as [->|Hne].
    + rewrite String.eqb_refl. destruct (counts !! name); simpl; [|done].
      f_equal. lia.
    + apply String.eqb_neq in Hne. rewrite Hne. done.
Qed.

Section DeleteRepo.
Context {HashTree : Type} (d : Env HashTree).

(** C6. Without [force], [deleteRepo] of a repo whose refcount is
    greater than zero fails and leaves the store as it was. When
    [deleteRepo] succeeds, [force] was set or the refcount was zero;
    the repo record and its refcount entry are gone, the repo has no
    commits and no branches left, and the refcount of every other repo
    went down by one for each time the deleted repo's provenance lists
    it, a repo without refcount entry staying without. *)
Theorem deleteRepo_spec st repo force :
  (forall n, force = false -> repoRefCounts st !! Repo_Name repo = Some n -> 0 < n ->
     fst (deleteRepo d st repo force) = st /\ ~ is_Ok (snd (deleteRepo d st repo force))) /\
  (snd (deleteRepo d st repo force) = Ok tt ->
     let st' := fst (deleteRepo d st repo force) in
     (force = true \/ repoRefCounts st !! Repo_Name repo = Some 0) /\
     repos st' !! Repo_Name repo = None /\
     repoRefCounts st' !! Repo_Name repo = None /\
     commits st' !!! Repo_Name repo = (∅ : gmap string CommitInfo) /\
     branches st' !!! Repo_Name repo = (∅ : gmap string Commit) /\
     exists repoInfo,
       repos st !! Repo_Name repo = Some repoInfo /\
       forall name, name <> Repo_Name repo ->
         repoRefCounts st' !! name
         = (fun v => v - occurrences name (ri_Provenance repoInfo)) <$> repoRefCounts st !! name).
Proof.
  split.
  - intros n -> Hn Hpos. unfold deleteRepo.
    destruct (checkIsAuthorized d repo Scope_OWNER); [|split; [done|by intros [? ?]]..].
    unfold deleteRepo_stm, col.Get. rewrite Hn. cbn [mbind outcome_bind].
    destruct (n =? 0) eqn:E; [apply Z.eqb_eq in E; lia|].
    cbn [mbind outcome_bind NewSTM fst snd]. split; [done|by intros [? ?]].
  - intros Hok st'. subst st'. revert Hok. unfold deleteRepo.
    destruct (checkIsAuthorized d repo Scope_OWNER); [|done..].
    unfold NewSTM. destruct (deleteRepo_stm st repo force) as [[st' []]| |] eqn:Hstm; [|done..].
    intros _.
    assert (fst (match SetACL d (Repo_Name repo) with
                 | Authorized | NotActivated => (st', Ok tt)
                 | _ => (st', Err (ErrExternal "auth"))
                 end) = st') as -> by (by destruct (SetACL d (Repo_Name repo))).
    revert Hstm. unfold deleteRepo_stm.
    destruct (if force then Ok tt else _) as [[]| |] eqn:Hcheck; [|done..].
    cbn [mbind outcome_bind]. unfold col.Get at 1.
    destruct (repos st !! Repo_Name repo) as [repoInfo|] eqn:Hrepo; [|done].
    cbn [mbind outcome_bind]. rewrite deleteRepo_decrements. cbn [mbind outcome_bind].
    unfold col.Delete. rewrite Hrepo. cbn [mbind outcome_bind].
    destruct (decrement_all _ _ !! Repo_Name repo) eqn:Hcount; [|done].
    cbn [mbind outcome_bind]. intros [= <-]. cbn [repos repoRefCounts commits branches].
    split.
    { destruct force; [by left|right]. revert Hcheck. unfold col.Get.
      destruct (repoRefCounts st !! Repo_Name repo) as [n|]; [|done].
      cbn [mbind outcome_bind]. destruct (n =? 0) eqn:E; [|done].
      apply Z.eqb_eq in E. by subst. }
    split; [apply lookup_delete_eq|]. split; [apply lookup_delete_eq|].
    split; [by rewrite lookup_total_insert_eq|]. split; [by rewrite lookup_total_insert_eq|].
    exists repoInfo. split; [done|]. intros name Hne.
    rewrite lookup_delete_ne by done. apply decrement_all_lookup.
Qed.

End DeleteRepo.

(** Scenario S1: with c on b on a, deleting a is refused and changes
    nothing; deleting c succeeds and leaves a with refcount 1 and b
    with refcount 0. *)
Lemma deleteRepo_spec_witness :
  (fst (deleteRepo Fixture.env Fixture.s1_c (Fixture.repo "a") false) = Fixture.s1_c /\
   ~ is_Ok (snd (deleteRepo Fixture.env Fixture.s1_c (Fixture.repo "a") false))) /\
  (let st' := fst (deleteRepo Fixture.env Fixture.s1_c (Fixture.repo "c") false) in
   repos st' !! "c" = None /\
   repoRefCounts st' !! "a" = Some 1 /\
   repoRefCounts st' !! "b" = Some 0).
Proof.
  split.
  - apply (proj1 (deleteRepo_spec Fixture.env Fixture.s1_c (Fixture.repo "a") false) 2).
    + reflexivity.
    + vm_compute. reflexivity.
    + lia.
  - destruct (proj2 (deleteRepo_spec Fixture.env Fixture.s1_c (Fixture.repo "c") false))
      as (_ & Hrepo & _ & _ & _ & repoInfo & Hinfo & Hcounts).
    + vm_compute. reflexivity.
    + split; [exact Hrepo|].
      assert (repoInfo = mkRepoInfo (Fixture.repo "c") 3 0 [Fixture.repo "a"; Fixture.repo "b"]
                           EmptyString) as ->.
      { vm_compute in Hinfo. by injection Hinfo as <-. }
      split.
      * rewrite (Hcounts "a") by discriminate. vm_compute. reflexivity.
      * rewrite (Hcounts "b") by discriminate. vm_compute. reflexivity.
Defined.

(** ** Finishing a commit (C5) *)

Lemma etcd_DeletePrefix_none prefix kvs kv :
  In kv (etcd_DeletePrefix prefix kvs) -> Go.HasPrefix (fst kv) prefix = false.
Proof.
  unfold etcd_DeletePrefix. rewrite filter_In. intros [_ H]. by apply negb_true_iff.
Qed.

Section FinishCommit.
Context {HashTree OpenHashTree : Type} `{!HashTreeAPI HashTree OpenHashTree}.
Variable d : Env HashTree.

Lemma scratchCommitPrefix_Ok st commit prefix commit' :
  scratchCommitPrefix d st commit = Ok (prefix, commit') ->
  prefix = Go.Join [scratchPrefix d; Repo_Name (Commit_Repo commit'); Commit_ID commit'].
Proof.
  unfold scratchCommitPrefix. intros ([info c] & _ & [= <- <-])%bind_Ok. done.
Qed.

Lemma finishCommit_prepare_Ok st commit finished c prefix info sz :
  finishCommit_prepare d st commit finished = Ok (c, prefix, info, sz) ->
  prefix = Go.Join [scratchPrefix d; Repo_Name (Commit_Repo c); Commit_ID c] /\
  exists old c1,
    inspectCommit d st (Some commit) = Ok (old, c1) /\
    finished_record d old info finished.
Proof.
  unfold finishCommit_prepare.
  intros ([] & _ & H)%bind_Ok.
  apply bind_Ok in H as ([old c1] & Hinspect & H).
  apply bind_Ok in H as ([] & Hopen & H).
  apply bind_Ok in H as ([prefix' c2] & Hprefix & H).
  apply bind_Ok in H as ([parentTree parentCommit] & _ & H).
  apply bind_Ok in H as (tree & _ & H).
  apply bind_Ok in H as (finishedTree & _ & H).
  apply bind_Ok in H as (data & Hdata & H).
  apply bind_Ok in H as (treeRef & Href & H).
  injection H as <- <- <- <-.
  split; [by apply (scratchCommitPrefix_Ok st c1)|].
  exists old, c1. split; [done|]. unfold finished_record. cbn.
  split; [by destruct (ci_Finished old)|].
  do 2 (split; [done|]).
  exists finishedTree, data.
  split; [by destruct (Serialize finishedTree) as [?|]; [injection Hdata as ->|]|].
  split; [done|].
  destruct (0 <? Go.len data).
  - destruct (PutObject d data) as [[obj n]|]; [|done]. injection Href as <-. split; [done|eauto].
  - injection Href as <-. done.
Qed.

Lemma finishCommit_inv commit finished st st' c :
  finishCommit d commit finished st = (st', Ok c) ->
  exists prefix info sz st1,
    finishCommit_prepare d st commit finished = Ok (c, prefix, info, sz) /\
    finishCommit_stm st c info sz = Ok (st1, tt) /\
    st' = set_scratch (etcd_DeletePrefix prefix) st1.
Proof.
  unfold finishCommit.
  intros ([[[c0 prefix] info] sz] & st1 & [-> Hprep]%readM_Ok & H)%bindM_Ok.
  apply bindM_Ok in H as ([] & st2 & Hstm%stmM_Ok & H).
  apply bindM_Ok in H as ([] & st3 & ->%writeM_Ok & [-> ->]%retM_Ok).
  exists prefix, info, sz, st2. done.
Qed.

Lemma finishCommit_stm_Ok st c info sz st1 :
  finishCommit_stm st c info sz = Ok (st1, tt) ->
  (commits st1 !!! Repo_Name (Commit_Repo c)) !! Commit_ID c = Some info /\
  openCommits st1 !! Commit_ID c = None /\
  is_Some (openCommits st !! Commit_ID c) /\
  scratch st1 = scratch st.
Proof.
  unfold finishCommit_stm. cbn [set_commits openCommits repos].
  intros (open' & Hdel & H)%bind_Ok.
  apply bind_Ok in H as (repoInfo & _ & [= <-]).
  cbn [set_repos set_openCommits set_commits commits openCommits scratch repos].
  unfold col.Delete in Hdel.
  destruct (openCommits st !! Commit_ID c) eqn:Hopen; [|done].
  injection Hdel as <-.
  split; [by rewrite lookup_total_insert_eq, lookup_insert_eq|].
  split; [apply lookup_delete_eq|]. split; [eauto|done].
Qed.

(** A finished commit is out of [openCommits]. *)
Lemma finishCommit_closes commit finished st st' c :
  finishCommit d commit finished st = (st', Ok c) ->
  openCommits st' !! Commit_ID c = None.
Proof.
  intros (prefix & info & sz & st1 & _ & Hstm & ->)%finishCommit_inv.
  by apply finishCommit_stm_Ok in Hstm as (_ & Hopen & _ & _).
Qed.

(** C5. After a [finishCommit] that returns no error, [c] being the
    commit with the real ID that the call leaves: no key of the
    scratch space starts with [scratch/<repo>/<c.ID>/]; the record of
    [c] is the one of the open commit with [Finished] set to the
    given time, [SizeBytes] to the size of the finished tree and
    [Tree] to the stored object of the serialised tree (a tree that
    serialises to nothing leaves [Tree] as it was); and [c.ID] is not
    in [openCommits]. *)
Theorem finishCommit_spec commit finished st st' c :
  finishCommit d commit finished st = (st', Ok c) ->
  (forall kv, In kv (scratch st') ->
     Go.HasPrefix (fst kv)
       (Go.Join [scratchPrefix d; Repo_Name (Commit_Repo c); Commit_ID c] +:+ "/") = false) /\
  (exists old c1 new,
     inspectCommit d st (Some commit) = Ok (old, c1) /\
     (commits st' !!! Repo_Name (Commit_Repo c)) !! Commit_ID c = Some new /\
     finished_record d old new finished) /\
  openCommits st' !! Commit_ID c = None.
Proof.
  intros (prefix & info & sz & st1 & Hprep & Hstm & ->)%finishCommit_inv.
  apply finishCommit_prepare_Ok in Hprep as (-> & old & c1 & Hinspect & Hrec).
  apply finishCommit_stm_Ok in Hstm as (Hcommit & Hopen & _ & _).
  split; [|split].
  - intros kv Hin. apply etcd_DeletePrefix_none in Hin.
    destruct (Go.HasPrefix _ (_ +:+ "/")) eqn:E; [|done].
    apply HasPrefix_app in E. congruence.
  - exists old, c1, info. done.
  - done.
Qed.

End FinishCommit.

(** Scenario S2: the first commit of the fixture is finished through its
    branch; its scratch key is gone, its record is finished with the
    five bytes of the file, and it is not open any more. *)
Lemma finishCommit_spec_witness :
  scratch Fixture.c_put <> [] /\
  scratch Fixture.c_finished = [] /\
  (commits Fixture.c_finished !!! "r") !! Fixture.id1 = Some Fixture.info1 /\
  openCommits Fixture.c_finished !! Fixture.id1 = None.
Proof.
  destruct (finishCommit_spec Fixture.env Fixture.master 3 Fixture.c_put Fixture.c_finished
              Fixture.c1) as (_ & _ & Hopen).
  - vm_compute. reflexivity.
  - split; [vm_compute; discriminate|]. split; [vm_compute; reflexivity|].
    split; [vm_compute; reflexivity|]. exact Hopen.
Defined.

(** ** The parent of a new commit (C4, C10) *)

Section MakeCommit.
Context {HashTree OpenHashTree : Type} `{!HashTreeAPI HashTree OpenHashTree}.
Variable d : Env HashTree.

Lemma getTreeForCommit_left st c tree left :
  getTreeForCommit d st (Some c) = Ok (tree, left) ->
  left = Some c \/
  exists info c', inspectCommit d st (Some c) = Ok (info, c') /\ left = Some c'.
Proof.
  unfold getTreeForCommit.
  destruct (String.eqb (Commit_ID c) EmptyString); [intros [= _ <-]; by left|].
  destruct (treeCache d (Commit_ID c)); [intros [= _ <-]; by left|].
  intros ([info c'] & Hinspect & H)%bind_Ok. right. exists info, c'. split; [done|].
  apply bind_Ok in H as (commitInfo & _ & H).
  destruct (ci_Finished commitInfo); [|done].
  destruct (ci_Tree commitInfo) as [treeRef|]; [|by injection H as _ <-].
  destruct (GetObject d (Object_Hash treeRef)) as [buf|]; [|done].
  destruct (Deserialize buf); [|done]. by injection H as _ <-.
Qed.

Lemma finished_parent_names_itself st repo id parent'' :
  names_itself st (Repo_Name repo) id ->
  finished_parent d st (mkCommit repo id) parent'' ->
  parent'' = mkCommit repo id.
Proof.
  intros Hself (info & parent' & Hinspect & _ & Hleft).
  apply (inspectCommit_names_itself d st repo id info parent' Hself) in Hinspect as ->.
  destruct Hleft as [->|(info' & Hinspect')]; [done|].
  by apply (inspectCommit_names_itself d st repo id info' parent'' Hself).
Qed.

(** The parent that the transaction of [makeCommit] settles on. *)
Lemma makeCommit_stm_parent st parent commit branch provenance built started finished st' :
  makeCommit_stm d st parent commit branch provenance built started finished = Ok (st', tt) ->
  let repoName := Repo_Name (Commit_Repo parent) in
  let parent1 :=
    if String.eqb branch EmptyString then parent
    else if String.eqb (Commit_ID parent) EmptyString then
           match (branches st !!! repoName) !! branch with
           | Some head => mkCommit (Commit_Repo parent) (Commit_ID head)
           | None => parent
           end
         else parent in
  exists parentCommit info,
    (commits st' !!! repoName) !! Commit_ID commit = Some info /\
    ci_Commit info = commit /\
    ci_ParentCommit info = parentCommit /\
    if String.eqb (Commit_ID parent1) EmptyString then parentCommit = None
    else exists parent'', parentCommit = Some parent'' /\ finished_parent d st parent1 parent''.
Proof.
  intros H repoName parent1. unfold makeCommit_stm in H. fold repoName in H.
  apply bind_Ok in H as (repoInfo & _ & H).
  apply bind_Ok in H as (provenanceMap & _ & H).
  assert ((if String.eqb branch EmptyString then (parent, branches st !!! repoName)
           else (if String.eqb (Commit_ID parent) EmptyString then
                   match (branches st !!! repoName) !! branch with
                   | Some head => mkCommit (Commit_Repo parent) (Commit_ID head)
                   | None => parent
                   end
                 else parent, <[branch := commit]> (branches st !!! repoName)))
          = (parent1, if String.eqb branch EmptyString then branches st !!! repoName
                      else <[branch := commit]> (branches st !!! repoName))) as Heq.
  { subst parent1. by destruct (String.eqb branch EmptyString). }
  rewrite Heq in H. clear Heq.
  apply bind_Ok in H as ([parent2 hasParent] & Hparent & H).
  apply bind_Ok in H as ([parentTree left] & Htree & H).
  apply bind_Ok in H as ([info st2] & Hinfo & H).
  apply bind_Ok in H as (commits' & Hcreate & [= <-]).
  exists (if hasParent then left else None), info.
  unfold col.Create in Hcreate.
  destruct ((commits st2 !!! repoName) !! Commit_ID commit); [done|]. injection Hcreate as <-.
  split; [cbn [set_commits commits]; by rewrite lookup_total_insert_eq, lookup_insert_eq|].
  assert (ci_Commit info = commit /\
          ci_ParentCommit info = if hasParent then left else None) as [-> ->].
  { destruct built as [[treeRef tree]|]; injection Hinfo as <- <-; done. }
  split; [done|]. split; [done|].
  destruct (String.eqb (Commit_ID parent1) EmptyString).
  - by injection Hparent as <- <-.
  - apply bind_Ok in Hparent as ([pinfo p'] & Hinspect & Hfin).
    destruct (ci_Finished pinfo) as [t|] eqn:E; [|done]. injection Hfin as <- <-.
    apply getTreeForCommit_left in Htree as [->|(info' & p'' & Hinspect' & ->)].
    + exists p'. split; [done|]. exists pinfo, p'. rewrite E. eauto.
    + exists p''. split; [done|]. exists pinfo, p'. rewrite E. eauto 6.
Qed.

Lemma makeCommit_inv parent branch provenance treeRef uuid started finished st st' c :
  makeCommit d (Some parent) branch provenance treeRef uuid started finished st = (st', Ok c) ->
  c = mkCommit (Commit_Repo parent) uuid /\
  exists built,
    makeCommit_stm d st parent c branch provenance built started finished = Ok (st', tt).
Proof.
  unfold makeCommit.
  intros ([] & st1 & [-> _]%readM_Ok & H)%bindM_Ok.
  apply bindM_Ok in H as (parent0 & st2 & [-> [= <-]]%readM_Ok & H).
  apply bindM_Ok in H as (built & st3 & [-> _]%readM_Ok & H).
  apply bindM_Ok in H as ([] & st4 & Hstm%stmM_Ok & [-> ->]%retM_Ok).
  split; [done|]. by exists built.
Qed.

(** [makeCommit] writes in one transaction: a call that does not
    succeed leaves the store as it was. *)
Lemma makeCommit_fail_unchanged parent branch provenance treeRef uuid started finished st :
  let r := makeCommit d parent branch provenance treeRef uuid started finished st in
  ~ is_Ok (snd r) -> fst r = st.
Proof.
  unfold makeCommit, bindM, readM, retM, stmM, NewSTM. cbn.
  destruct (deref parent ≫= _) as [[]| |]; [|done..].
  destruct parent as [parent|]; [|done].
  destruct (match treeRef with Some _ => _ | None => _ end) as [built| |]; [|done..].
  destruct (makeCommit_stm _ _ _ _ _ _ _ _ _) as [[st' []]| |]; [|done..].
  cbn. intros Hnot. exfalso. apply Hnot. by eexists.
Qed.

Lemma makeCommit_stm_open_parent st parent commit branch provenance built started finished
    pinfo parent' :
  Commit_ID parent <> EmptyString ->
  inspectCommit d st (Some parent) = Ok (pinfo, parent') ->
  ci_Finished pinfo = None ->
  ~ is_Ok (makeCommit_stm d st parent commit branch provenance built started finished).
Proof.
  intros Hid%String.eqb_neq Hinspect Hopen [[st' []] H]. unfold makeCommit_stm in H.
  apply bind_Ok in H as (repoInfo & _ & H).
  apply bind_Ok in H as (provenanceMap & _ & H).
  rewrite Hid in H. destruct (String.eqb branch EmptyString); rewrite Hid, Hinspect in H;
    cbn [mbind outcome_bind] in H; rewrite Hopen in H; done.
Qed.

(** C4. [makeCommit] without explicit parent ([parent.ID] empty) on a
    branch: the parent of the new commit is no commit when the branch
    has no head, and the head of the branch when it has one. With an
    explicit parent the parent of the new commit is that commit as
    [inspectCommit] finds it, the very ID given when it names its own
    record. A parent taken from the head or given is fetched and must
    be finished; [makeCommit] with an explicit parent that is still
    open fails and creates nothing. *)
Theorem makeCommit_parent st parent branch provenance treeRef uuid started finished :
  let repoName := Repo_Name (Commit_Repo parent) in
  let r := makeCommit d (Some parent) branch provenance treeRef uuid started finished st in
  (Commit_ID parent = EmptyString -> branch <> EmptyString ->
   (branches st !!! repoName) !! branch = None ->
   forall c, snd r = Ok c -> created_with_parent (fst r) c None) /\
  (Commit_ID parent = EmptyString -> branch <> EmptyString ->
   forall head, (branches st !!! repoName) !! branch = Some head ->
   Commit_ID head <> EmptyString ->
   forall c, snd r = Ok c ->
   exists parent',
     created_with_parent (fst r) c (Some parent') /\
     finished_parent d st (mkCommit (Commit_Repo parent) (Commit_ID head)) parent' /\
     (names_itself st repoName (Commit_ID head) ->
      parent' = mkCommit (Commit_Repo parent) (Commit_ID head))) /\
  (Commit_ID parent <> EmptyString ->
   forall c, snd r = Ok c ->
   exists parent',
     created_with_parent (fst r) c (Some parent') /\
     finished_parent d st parent parent' /\
     (names_itself st repoName (Commit_ID parent) -> parent' = parent)) /\
  (Commit_ID parent <> EmptyString ->
   forall pinfo parent',
     inspectCommit d st (Some parent) = Ok (pinfo, parent') ->
     ci_Finished pinfo = None ->
     fst r = st /\ ~ is_Ok (snd r)).
Proof.
  intros repoName r.
  assert (forall c, snd r = Ok c ->
            c = mkCommit (Commit_Repo parent) uuid /\
            exists built, makeCommit_stm d st parent c branch provenance built started finished
                          = Ok (fst r, tt)) as Hinv.
  { intros c Hc. subst r.
    destruct (makeCommit d (Some parent) branch provenance treeRef uuid started finished st)
      as [st' o] eqn:E.
    cbn [fst snd] in *. subst o. by apply makeCommit_inv in E. }
  split; [|split; [|split]].
  - intros Hid Hbranch%String.eqb_neq Hhead c Hc.
    destruct (Hinv c Hc) as (-> & built & Hstm).
    apply makeCommit_stm_parent in Hstm as (pc & info & Hget & Hcommit & Hparent & Hcase).
    fold repoName in Hget, Hcase. rewrite Hbranch, Hid, Hhead in Hcase. simpl in Hcase.
    rewrite Hid in Hcase. simpl in Hcase. subst pc.
    exists info. done.
  - intros Hid Hbranch%String.eqb_neq head Hhead Hne%String.eqb_neq c Hc.
    destruct (Hinv c Hc) as (-> & built & Hstm).
    apply makeCommit_stm_parent in Hstm as (pc & info & Hget & Hcommit & Hparent & Hcase).
    fold repoName in Hget, Hcase. rewrite Hbranch, Hid, Hhead in Hcase. simpl in Hcase.
    cbn [Commit_ID] in Hcase. rewrite Hne in Hcase.
    destruct Hcase as (parent' & -> & Hfin). exists parent'.
    split; [by exists info|]. split; [done|].
    intros Hself. by apply (finished_parent_names_itself st).
  - intros Hid%String.eqb_neq c Hc.
    destruct (Hinv c Hc) as (-> & built & Hstm).
    apply makeCommit_stm_parent in Hstm as (pc & info & Hget & Hcommit & Hparent & Hcase).
    fold repoName in Hget, Hcase. rewrite Hid in Hcase.
    assert ((if String.eqb branch EmptyString then parent else parent) = parent) as Heq
      by (by destruct (String.eqb branch EmptyString)).
    rewrite Heq, Hid in Hcase.
    destruct Hcase as (parent' & -> & Hfin). exists parent'.
    split; [by exists info|]. split; [done|].
    intros Hself. destruct parent as [prepo pid].
    by apply (finished_parent_names_itself st).
  - intros Hid pinfo parent' Hinspect Hopen.
    assert (~ is_Ok (snd r)) as Hnot.
    { intros [c Hc]. destruct (Hinv c Hc) as (-> & built & Hstm).
      apply (makeCommit_stm_open_parent st parent (mkCommit (Commit_Repo parent) uuid) branch
               provenance built started finished pinfo parent'); [done..|].
      by eexists. }
    split; [|done]. by apply makeCommit_fail_unchanged.
Qed.

(** C10. [makeCommit] with a nil [parent] faults: [parent.Repo] is read
    for the authorization check, which comes before the comparison of
    [parent] with nil, so the error [parent cannot be nil] is never
    returned. Nothing is written. *)
Theorem makeCommit_nil_parent st branch provenance treeRef uuid started finished :
  makeCommit d None branch provenance treeRef uuid started finished st = (st, Panic) /\
  startCommit d None branch provenance uuid started finished st = (st, Panic) /\
  buildCommit d None branch provenance treeRef uuid started finished st = (st, Panic) /\
  makeCommit d None branch provenance treeRef uuid started finished st
  <> (st, Err (Errorf "parent cannot be nil")).
Proof. repeat split. discriminate. Qed.

End MakeCommit.

(** In the fixture: the first commit on a branch without head has no
    parent; the second, on the branch again, has the first for parent;
    so has a commit that names the first as its parent; and a commit on
    the first while this is open is refused. *)
Lemma makeCommit_parent_witness :
  created_with_parent Fixture.c_open Fixture.c1 None /\
  created_with_parent Fixture.c_second Fixture.c2 (Some Fixture.c1) /\
  created_with_parent
    (fst (startCommit Fixture.env_warm (Some Fixture.c1) EmptyString [] Fixture.id2 4 4
            Fixture.c_finished))
    Fixture.c2 (Some Fixture.c1) /\
  (fst (startCommit Fixture.env (Some Fixture.c1) EmptyString [] Fixture.id2 4 4 Fixture.c_open)
   = Fixture.c_open /\
   ~ is_Ok (snd (startCommit Fixture.env (Some Fixture.c1) EmptyString [] Fixture.id2 4 4
                   Fixture.c_open))).
Proof.
  split; [|split; [|split]].
  - apply (proj1 (makeCommit_parent Fixture.env Fixture.c_repo Fixture.no_parent "master" []
                    None Fixture.id1 2 2)).
    + reflexivity.
    + discriminate.
    + vm_compute. reflexivity.
    + vm_compute. reflexivity.
  - destruct (proj1 (proj2 (makeCommit_parent Fixture.env_warm Fixture.c_finished
                              Fixture.no_parent "master" [] None Fixture.id2 4 4))
                eq_refl ltac:(discriminate) Fixture.c1 ltac:(vm_compute; reflexivity)
                ltac:(discriminate) Fixture.c2 ltac:(vm_compute; reflexivity))
      as (parent' & Hcreated & _ & Hself).
    rewrite Hself in Hcreated; [exact Hcreated|].
    split; [reflexivity|]. split; [vm_compute; reflexivity|].
    intros info Hinfo. vm_compute in Hinfo. by injection Hinfo as <-.
  - destruct (proj1 (proj2 (proj2 (makeCommit_parent Fixture.env_warm Fixture.c_finished
                                      Fixture.c1 EmptyString [] None Fixture.id2 4 4)))
                ltac:(discriminate) Fixture.c2 ltac:(vm_compute; reflexivity))
      as (parent' & Hcreated & _ & Hself).
    rewrite Hself in Hcreated; [exact Hcreated|].
    split; [reflexivity|]. split; [vm_compute; reflexivity|].
    intros info Hinfo. vm_compute in Hinfo. by injection Hinfo as <-.
  - apply (proj2 (proj2 (proj2 (makeCommit_parent Fixture.env Fixture.c_open Fixture.c1
                                   EmptyString [] None Fixture.id2 4 4)))
             ltac:(discriminate)
             (mkCommitInfo Fixture.c1 None 2 None 0 None []) Fixture.c1).
    + vm_compute. reflexivity.
    + reflexivity.
Defined.

(** ** Split batches (C7) *)

Section ApplyWrites.
Context {HashTree OpenHashTree : Type} `{!HashTreeAPI HashTree OpenHashTree}.
Variable d : Env HashTree.



End ApplyWrites.


(** ** Provenance of repos (C1) *)

Section CreateRepo.
Context {HashTree : Type} (d : Env HashTree).

Lemma fullProv_fold st provenance (acc full : gset string) :
  foldM (fun (fullProv : gset string) prov =>
           provRepo ← col.Get (repos st) (Repo_Name prov);
           Ok (list_to_set (Repo_Name <$> ri_Provenance provRepo)
                 ∪ ({[Repo_Name prov]} ∪ fullProv)))
        provenance acc = Ok full ->
  (forall p, p ∈ provenance -> is_Some (repos st !! Repo_Name p)) /\
  (forall x, x ∈ full <->
     x ∈ acc \/
     exists p, p ∈ provenance /\
       (x = Repo_Name p \/
        exists pi, repos st !! Repo_Name p = Some pi /\ x ∈ prov_names pi)).
Proof.
  revert acc. induction provenance as [|prov provenance IH]; intros acc.
  - intros [= <-]. split; [by intros p ?%elem_of_nil|].
    intros x. split; [by left|]. intros [?|(p & ?%elem_of_nil & _)]; done.
  - cbn [foldM]. unfold col.Get.
    destruct (repos st !! Repo_Name prov) as [pi|] eqn:Hprov; [|done].
    cbn [mbind outcome_bind]. intros H. apply IH in H as [Hex Hfull]. split.
    + intros p [->|Hp]%elem_of_cons; [by rewrite Hprov|by apply Hex].
    + intros x. rewrite Hfull. rewrite !elem_of_union, elem_of_singleton, elem_of_list_to_set.
      fold (prov_names pi). split.
      * intros [[Hx|[->|Hx]]|(p & Hp & Hx)].
        -- right. exists prov. split; [left|]. right. eauto.
        -- right. exists prov. split; [left|]. by left.
        -- by left.
        -- right. exists p. split; [by right|done].
      * intros [Hx|(p & [->|Hp]%elem_of_cons & Hx)].
        -- left. right. by right.
        -- left. destruct Hx as [->|(pi' & Hpi' & Hx)]; [right; by left|].
           left. rewrite Hprov in Hpi'. by injection Hpi' as <-.
        -- right. eauto.
Qed.

Lemma createRepo_stm_Ok st repo provenance description now st' :
  createRepo_stm d st repo provenance description now = Ok (st', tt) ->
  repos st !! Repo_Name repo = None /\
  exists fullProv : gset string,
    repos st' = <[Repo_Name repo := mkRepoInfo repo now 0 (mkRepo <$> elements fullProv)
                                               description]> (repos st) /\
    (forall p, p ∈ provenance -> is_Some (repos st !! Repo_Name p)) /\
    (forall x, x ∈ fullProv <->
       exists p, p ∈ provenance /\
         (x = Repo_Name p \/
          exists pi, repos st !! Repo_Name p = Some pi /\ x ∈ prov_names pi)).
Proof.
  unfold createRepo_stm. intros ([] & Hnew & H)%bind_Ok.
  apply bind_Ok in H as ([] & _ & H).
  apply bind_Ok in H as (fullProv & Hfull & H).
  apply bind_Ok in H as (counts & _ & H).
  apply bind_Ok in H as (counts' & _ & H).
  apply bind_Ok in H as (repos' & Hcreate & [= <-]).
  destruct (repos st !! Repo_Name repo) eqn:Hrepo; [done|]. split; [done|].
  exists fullProv. unfold col.Create in Hcreate. rewrite Hrepo in Hcreate.
  injection Hcreate as <-. split; [done|].
  apply fullProv_fold in Hfull as [Hex Hfull]. split; [done|].
  intros x. rewrite Hfull. split; [intros [?%not_elem_of_empty|?]; done|by right].
Qed.

(** The part of the invariant that [createRepo] keeps: it stores the
    provenance repos named together with the provenance of each, so a
    store whose provenance lists are closed stays so. *)
Lemma createRepo_closed st repo provenance description now st' :
  provenance_closed (repos st) -> provenance_exists (repos st) ->
  createRepo d st repo provenance description false now = (st', Ok tt) ->
  provenance_closed (repos st') /\ provenance_exists (repos st').
Proof.
  intros Hclosed Hexists. unfold createRepo.
  destruct (ValidateRepoName (Repo_Name repo)); [|done..].
  unfold NewSTM. destruct (createRepo_stm _ _ _ _ _ _) as [[st1 []]| |] eqn:Hstm; [|done..].
  intros [= ->]. apply createRepo_stm_Ok in Hstm as (Hnew & fullProv & -> & Hprovs & Hfull).
  set (new := mkRepoInfo repo now 0 (mkRepo <$> elements fullProv) description).
  assert (forall x, x ∈ prov_names new <-> x ∈ fullProv) as Hnames.
  { intros x. unfold prov_names, new. cbn [ri_Provenance]. split.
    - intros (r & -> & (y & -> & Hy)%list_elem_of_fmap)%list_elem_of_fmap.
      by apply elem_of_elements.
    - intros Hx%elem_of_elements. apply list_elem_of_fmap. exists (mkRepo x).
      split; [done|]. apply list_elem_of_fmap. eauto. }
  assert (forall x, x ∈ fullProv -> is_Some (repos st !! x)) as Hfull_ex.
  { intros x (p & Hp & [->|(pi & Hpi & Hx)])%Hfull; [by apply Hprovs|].
    by apply (Hexists (Repo_Name p) pi). }
  split.
  - intros r s ri si Hr Hs Hsi t Ht.
    destruct (decide (r = Repo_Name repo)) as [->|Hne].
    + rewrite lookup_insert_eq in Hr. injection Hr as <-.
      apply Hnames in Hs. apply Hnames.
      assert (s <> Repo_Name repo) as Hs_ne.
      { intros ->. apply Hfull_ex in Hs as [? Hs]. congruence. }
      rewrite lookup_insert_ne in Hsi by done.
      apply Hfull in Hs as (p & Hp & [->|(pi & Hpi & Hs)]); apply Hfull.
      * exists p. split; [done|]. right. eauto.
      * exists p. split; [done|]. right. exists pi. split; [done|].
        by apply (Hclosed (Repo_Name p) s pi si).
    + rewrite lookup_insert_ne in Hr by done.
      assert (s <> Repo_Name repo) as Hs_ne.
      { intros ->. destruct (Hexists _ _ _ Hr Hs) as [? E]. congruence. }
      rewrite lookup_insert_ne in Hsi by done.
      by apply (Hclosed r s ri si).
  - intros r ri s Hr Hs.
    destruct (decide (r = Repo_Name repo)) as [->|Hne].
    + rewrite lookup_insert_eq in Hr. injection Hr as <-. apply Hnames in Hs.
      apply Hfull_ex in Hs as [si Hsi].
      destruct (decide (Repo_Name repo = s)) as [<-|?]; [congruence|].
      rewrite lookup_insert_ne by done. eauto.
    + rewrite lookup_insert_ne in Hr by done.
      destruct (Hexists _ _ _ Hr Hs) as [si Hsi].
      destruct (decide (Repo_Name repo = s)) as [<-|?]; [congruence|].
      rewrite lookup_insert_ne by done. eauto.
Qed.

(** What [updateRepo] stores for the repo itself: the list it is given,
    as it is given. *)
Lemma updateRepo_stores_given st repo provenance description st' :
  updateRepo d st repo provenance description = (st', Ok tt) ->
  exists repoInfo,
    repos st' !! Repo_Name repo = Some repoInfo /\
    ri_Provenance repoInfo = provenance.
Proof.
  unfold updateRepo, NewSTM.
  destruct (updateRepo_stm d st repo provenance description) as [[st1 []]| |] eqn:Hstm; [|done..].
  intros [= <-]. unfold updateRepo_stm in Hstm.
  apply bind_Ok in Hstm as (repoInfo & _ & H).
  apply bind_Ok in H as ([] & _ & H).
  apply bind_Ok in H as (myRefCount & _ & H).
  apply bind_Ok in H as (counts & _ & H).
  apply bind_Ok in H as (counts' & _ & H).
  apply bind_Ok in H as (downstreamRepos & _ & [= <-]).
  cbn [set_repos repos]. rewrite lookup_insert_eq. eauto.
Qed.

End CreateRepo.

(** C1, at the input where it fails. Repos t, s on t and r are created,
    and r is updated to depend on s; the four calls succeed. The
    provenance of r is then s alone: [updateRepo] stores the list it is
    given, without the provenance of its members, which [createRepo]
    adds. So r depends on s and s on t, and t is not in the provenance
    of r. *)
Theorem updateRepo_breaks_closure :
  snd Fixture.u_t = Ok tt /\ snd Fixture.u_s = Ok tt /\
  snd Fixture.u_r = Ok tt /\ snd Fixture.u_upd = Ok tt /\
  provenance_closed (repos (fst Fixture.u_r)) /\
  prov_names <$> repos (fst Fixture.u_upd) !! "r" = Some ["s"] /\
  prov_names <$> repos (fst Fixture.u_upd) !! "s" = Some ["t"] /\
  ~ provenance_closed (repos (fst Fixture.u_upd)).
Proof.
  assert (provenance_closed (repos Fixture.empty) /\ provenance_exists (repos Fixture.empty))
    as H0.
  { split.
    - intros r s ri si Hr. cbn in Hr. by rewrite lookup_empty in Hr.
    - intros r ri s Hr. cbn in Hr. by rewrite lookup_empty in Hr. }
  assert (provenance_closed (repos (fst Fixture.u_r))) as Hclosed.
  { destruct H0 as [Hc He].
    destruct (createRepo_closed Fixture.env Fixture.empty (Fixture.repo "t") [] EmptyString 1
                (fst Fixture.u_t) Hc He ltac:(vm_compute; reflexivity)) as [Hc1 He1].
    destruct (createRepo_closed Fixture.env (fst Fixture.u_t) (Fixture.repo "s")
                [Fixture.repo "t"] EmptyString 2 (fst Fixture.u_s) Hc1 He1
                ltac:(vm_compute; reflexivity)) as [Hc2 He2].
    by destruct (createRepo_closed Fixture.env (fst Fixture.u_s) (Fixture.repo "r") []
                   EmptyString 3 (fst Fixture.u_r) Hc2 He2 ltac:(vm_compute; reflexivity)). }
  do 4 (split; [vm_compute; reflexivity|]). split; [exact Hclosed|].
  do 2 (split; [vm_compute; reflexivity|]).
  intros Hc.
  specialize (Hc "r" "s"
                (mkRepoInfo (Fixture.repo "r") 3 0 [Fixture.repo "s"] EmptyString)
                (mkRepoInfo (Fixture.repo "s") 2 0 [Fixture.repo "t"] EmptyString)
                ltac:(vm_compute; reflexivity)
                ltac:(apply list_elem_of_In; simpl; auto)
                ltac:(vm_compute; reflexivity)
                "t" ltac:(apply list_elem_of_In; simpl; auto)).
  apply list_elem_of_In in Hc. simpl in Hc. destruct Hc as [Hc|[]]. discriminate.
Qed.

(** ** Writes to commits that are not open (C2) *)

Section PutFileOpen.
Context {HashTree OpenHashTree : Type} `{!HashTreeAPI HashTree OpenHashTree}.
Variable d : Env HashTree.

(** [putFile] on a commit with a real ID that is not in [openCommits],
    and not an overwrite from index 0: the call fails and writes
    nothing, with the error of the transaction when it gets there. *)
Lemma putFile_not_open file delimiter datums bytes overwriteIndex reader uuid1 uuid2 st :
  looksLikeCommitID (Commit_ID (file_Commit file)) = true ->
  openCommits st !! Commit_ID (file_Commit file) = None ->
  from_start overwriteIndex = false ->
  let r := putFile d file delimiter datums bytes overwriteIndex reader uuid1 uuid2 st in
  fst r = st /\ ~ is_Ok (snd r) /\
  (checkIsAuthorized d (Commit_Repo (file_Commit file)) Scope_WRITER = Ok tt ->
   checkPath (file_Path file) = Ok tt ->
   is_Ok (buildRecords d delimiter datums bytes overwriteIndex reader) ->
   snd r = Err (Errorf ("commit " +:+ Commit_ID (file_Commit file) +:+ " is not open"))).
Proof.
  intros Hid Hopen Hstart r. subst r. unfold putFile, bindM, readM, retM.
  destruct (checkIsAuthorized d (Commit_Repo (file_Commit file)) Scope_WRITER) as [[]|e|];
    try failed_unchanged.
  rewrite Hid.
  assert (match overwriteIndex with
          | Some oi => if Index oi =? 0 then deleteFile d file uuid1
                       else fun st => (st, Ok file)
          | None => fun st => (st, Ok file)
          end st = (st, Ok file)) as ->.
  { destruct overwriteIndex as [oi|]; [|done]. simpl in Hstart. by rewrite Hstart. }
  destruct (checkPath (file_Path file)) as [[]|e|]; try failed_unchanged.
  destruct (buildRecords d delimiter datums bytes overwriteIndex reader) as [records|e|];
    try (failed_unchanged; by intros _ _ [? ?]).
  unfold putRecords. rewrite Hopen. failed_unchanged.
Qed.

(** The half of C2 that holds: after a [finishCommit] that returns no
    error, [putFile] on the finished commit fails with the error that
    the commit is not open, and writes nothing. *)
Lemma putFile_after_finishCommit commit finished st st' c path delimiter datums bytes
    overwriteIndex reader uuid1 uuid2 :
  finishCommit d commit finished st = (st', Ok c) ->
  looksLikeCommitID (Commit_ID c) = true ->
  from_start overwriteIndex = false ->
  let r := putFile d (mkFile c path) delimiter datums bytes overwriteIndex reader uuid1 uuid2
             st' in
  fst r = st' /\ ~ is_Ok (snd r) /\
  (checkIsAuthorized d (Commit_Repo c) Scope_WRITER = Ok tt ->
   checkPath path = Ok tt ->
   is_Ok (buildRecords d delimiter datums bytes overwriteIndex reader) ->
   snd r = Err (Errorf ("commit " +:+ Commit_ID c +:+ " is not open"))).
Proof.
  intros Hfinish Hid Hstart.
  apply (putFile_not_open (mkFile c path)); [done| |done].
  by apply (finishCommit_closes d commit finished st).
Qed.

(** An overwrite from index 0 on a finished commit stops at the
    tombstone, with [ErrCommitFinished], and writes nothing. *)
Lemma putFile_from_start_finished file delimiter datums bytes oi reader uuid1 uuid2 st info c' :
  looksLikeCommitID (Commit_ID (file_Commit file)) = true ->
  checkIsAuthorized d (Commit_Repo (file_Commit file)) Scope_WRITER = Ok tt ->
  Index oi = 0 ->
  inspectCommit d st (Some (file_Commit file)) = Ok (info, c') ->
  is_Some (ci_Finished info) ->
  putFile d file delimiter datums bytes (Some oi) reader uuid1 uuid2 st
  = (st, Err (ErrCommitFinished c')).
Proof.
  intros Hid Hauth Hzero Hinspect [t Hfin].
  unfold putFile, bindM, readM, retM. rewrite Hauth, Hid, Hzero. cbn [Z.eqb].
  unfold deleteFile, bindM, readM. rewrite Hauth, Hinspect, Hfin. done.
Qed.

End PutFileOpen.

(** *** What [deleteCommit] leaves of [openCommits] *)

Lemma keeps_open_retM {A} (a : A) : keeps_open (retM a).
Proof. done. Qed.

Lemma keeps_open_readM {A} (f : State -> outcome A) : keeps_open (readM f).
Proof. done. Qed.

Lemma keeps_open_writeM (f : State -> State) :
  (forall st, openCommits (f st) = openCommits st) -> keeps_open (writeM f).
Proof. intros Hf st. apply Hf. Qed.

Lemma keeps_open_stmM {A} (body : State -> outcome (State * A)) :
  (forall st st' a, body st = Ok (st', a) -> openCommits st' = openCommits st) ->
  keeps_open (stmM body).
Proof.
  intros Hbody st. unfold stmM, NewSTM.
  destruct (body st) as [[st' a]| |] eqn:E; [|done..]. by apply (Hbody st st' a).
Qed.

Lemma keeps_open_bindM {A B} (m : M A) (f : A -> M B) :
  keeps_open m -> (forall a, keeps_open (f a)) -> keeps_open (bindM m f).
Proof.
  intros Hm Hf st. unfold bindM. specialize (Hm st).
  destruct (m st) as [st' [a|e|]]; cbn [fst] in *; [|done..].
  by rewrite Hf.
Qed.

Section DeleteCommit.
Context {HashTree : Type} (d : Env HashTree).

Lemma setBranch_keeps_open commit name : keeps_open (setBranch d commit name).
Proof.
  unfold setBranch.
  apply keeps_open_bindM; [apply keeps_open_readM|intros _].
  apply keeps_open_bindM; [apply keeps_open_readM|intros [_ commit']].
  apply keeps_open_bindM; [|intros _; apply keeps_open_retM].
  apply keeps_open_stmM. intros st st' a (info & _ & [= <- _])%bind_Ok. done.
Qed.

Lemma deleteBranch_keeps_open repo name : keeps_open (deleteBranch d repo name).
Proof.
  unfold deleteBranch.
  apply keeps_open_bindM; [apply keeps_open_readM|intros _].
  apply keeps_open_stmM. intros st st' a (branches' & _ & [= <- _])%bind_Ok. done.
Qed.

Lemma retargetBranches_keeps_open commit commitID parentCommit branches :
  keeps_open (retargetBranches d commit commitID parentCommit branches).
Proof.
  revert parentCommit.
  induction branches as [|branch rest IH]; intros parentCommit; [apply keeps_open_retM|].
  cbn [retargetBranches].
  destruct (String.eqb (Commit_ID (bi_Head branch)) commitID); [|apply IH].
  destruct parentCommit as [parent|].
  - apply keeps_open_bindM; [apply setBranch_keeps_open|intros parent'; apply IH].
  - apply keeps_open_bindM; [apply deleteBranch_keeps_open|intros _; apply IH].
Qed.

(** [deleteCommit] has no write to [openCommits]: the key of an open
    commit outlives the commit, whatever the call returns. *)
Lemma deleteCommit_keeps_open commit : keeps_open (deleteCommit d commit).
Proof.
  unfold deleteCommit.
  apply keeps_open_bindM; [apply keeps_open_readM|intros _].
  apply keeps_open_bindM; [apply keeps_open_readM|intros [commitInfo commit1]].
  apply keeps_open_bindM; [apply keeps_open_readM|intros _].
  apply keeps_open_bindM; [apply keeps_open_readM|intros [prefix commit2]].
  apply keeps_open_bindM; [by apply keeps_open_writeM|intros _].
  apply keeps_open_bindM; [apply keeps_open_readM|intros branches].
  apply keeps_open_bindM; [apply retargetBranches_keeps_open|intros _].
  apply keeps_open_bindM; [|intros _; apply keeps_open_retM].
  apply keeps_open_stmM. intros st st' a (repoInfo & _ & H)%bind_Ok.
  apply bind_Ok in H as (commits' & _ & [= <- _]). done.
Qed.

End DeleteCommit.

(** C2, at the input where it fails. The first commit of the fixture
    is deleted while open, and [deleteCommit] returns no error: the
    record of the commit and the head of its branch are gone, but its
    key stays in [openCommits], which [finishCommit] removes and
    [deleteCommit] does not. A [putFile] on the commit then succeeds
    and adds a scratch record. *)
Theorem putFile_after_deleteCommit :
  openCommits Fixture.c_open !! Fixture.id1 = Some Fixture.c1 /\
  snd Fixture.c_deleted = Ok Fixture.c1 /\
  (commits (fst Fixture.c_deleted) !!! "r") !! Fixture.id1 = None /\
  openCommits (fst Fixture.c_deleted) !! Fixture.id1 = Some Fixture.c1 /\
  scratch (fst Fixture.c_deleted) = [] /\
  snd Fixture.c_put_deleted = Ok tt /\
  scratch (fst Fixture.c_put_deleted)
  = [("/pfs/scratch/r/0123456789ab4def0123456789abcde1/x/u2",
      Marshalled (mkPutFileRecords false
                    [mkPutFileRecord 4 "hell" None; mkPutFileRecord 1 "o" None]))].
Proof. repeat split; vm_compute; reflexivity. Qed.

(** The same write after [finishCommit] is refused. *)
Example putFile_after_finishCommit_fixture :
  putFile Fixture.env (mkFile Fixture.c1 "/x") Delimiter_NONE 0 0 None "hello" "u1" "u2"
          Fixture.c_finished
  = (Fixture.c_finished,
     Err (Errorf "commit 0123456789ab4def0123456789abcde1 is not open")).
Proof. vm_compute. reflexivity. Qed.
